(** * ical-bot: the event-notification scheduler

    A shallow embedding of [check_upcoming_events] (bot.py) and of
    [fetch_calendar] / [get_events] (calendar_utils.py), with the part of
    Python's [datetime] and [str] that they use, and the properties of the
    scheduler proved about it.

    The bot starts [check_upcoming_events] twice, in [on_startup] and in
    [main], and the two tasks share the dict [notified_events]: one task is
    embedded here, and what the other does to the dict while this one is
    suspended at an await is a parameter of the embedding. *)

From Stdlib Require Import ZArith QArith String Ascii DecimalString List Lia.
From stdpp Require Import gmap strings.
Import ListNotations.
Close Scope Q_scope.
Open Scope string_scope.
Open Scope list_scope.
Open Scope Z_scope.


(** ** Python strings

    A [str] is modelled as a [string] holding its UTF-8 bytes.  The
    operations used by the scheduler ([split('_')], [startswith], a slice
    [[:10]], concatenation) cut at ASCII characters only, where bytes and
    code points agree. *)
Module PyStr.

Definition nl : string := String "010"%char EmptyString.

(** [str(n)] for an [int]. *)
Definition of_int (n : Z) : string := NilZero.string_of_int (Z.to_int n).

Fixpoint zeros (k : nat) : string :=
  match k with O => "" | S k' => String "0"%char (zeros k') end.

(** The conversion [%0<width>d]: zero-padded on the left up to [width]
    characters, the sign included. *)
Definition zfill (width : nat) (n : Z) : string :=
  let body := of_int (Z.abs n) in
  let sign := if n <? 0 then "-" else "" in
  sign +:+ zeros (width - String.length sign - String.length body) +:+ body.

(** [s.split(sep)] for a one-character separator: never empty. *)
Fixpoint split (sep : ascii) (s : string) : list string :=
  match s with
  | EmptyString => [""]
  | String c rest =>
      if Ascii.eqb c sep then "" :: split sep rest
      else match split sep rest with
           | [] => [String c ""]
           | p :: ps => String c p :: ps
           end
  end.

(** [s.startswith(p)]. *)
Definition startswith (s p : string) : bool := String.prefix p s.

(** [s[:n]]. *)
Definition take (n : nat) (s : string) : string := substring 0 n s.

End PyStr.

(** ** Exceptions

    [Exception cls msg] stands for an instance of a subclass of Python's
    [Exception] ([str(e)] is [msg]); [CancelledError] for the cancellation of
    the scheduler's task, which derives from [BaseException] and is the one
    thing an [except Exception] clause does not catch. *)
Inductive exn : Type :=
| Exception (cls msg : string)
| CancelledError.

Inductive result (A : Type) : Type :=
| Ok (a : A)
| Raise (e : exn).
Arguments Ok {A} a.
Arguments Raise {A} e.

Definition str_exn (e : exn) : string :=
  match e with
  | Exception _ msg => msg
  | CancelledError => ""
  end.

(** ** The part of [datetime] the scheduler uses *)
Module DT.

(** A [datetime.datetime]: its wall-clock fields and, for an aware value,
    the offset in seconds that its [tzinfo] reports for it ([None] for a
    naive value). *)
Record datetime : Type := mk {
  year : Z; month : Z; day : Z;
  hour : Z; minute : Z; second : Z; microsecond : Z;
  utcoffset : option Z
}.

Definition is_leap (y : Z) : bool :=
  (y mod 4 =? 0) && (negb (y mod 100 =? 0) || (y mod 400 =? 0)).

Definition days_before_year (y : Z) : Z :=
  let y' := y - 1 in y' * 365 + y' / 4 - y' / 100 + y' / 400.

Definition DAYS_IN_MONTH (m : Z) : Z :=
  match m with
  | 1 => 31 | 2 => 28 | 3 => 31 | 4 => 30 | 5 => 31 | 6 => 30
  | 7 => 31 | 8 => 31 | 9 => 30 | 10 => 31 | 11 => 30 | 12 => 31
  | _ => -1
  end.

Definition DAYS_BEFORE_MONTH (m : Z) : Z :=
  match m with
  | 1 => 0 | 2 => 31 | 3 => 59 | 4 => 90 | 5 => 120 | 6 => 151
  | 7 => 181 | 8 => 212 | 9 => 243 | 10 => 273 | 11 => 304 | 12 => 334
  | _ => -1
  end.

Definition days_before_month (y m : Z) : Z :=
  DAYS_BEFORE_MONTH m + (if (2 <? m) && is_leap y then 1 else 0).

Definition ymd2ord (y m d : Z) : Z :=
  days_before_year y + days_before_month y m + d.

Definition DI400Y : Z := days_before_year 401.
Definition DI100Y : Z := days_before_year 101.
Definition DI4Y : Z := days_before_year 5.

(** The proleptic Gregorian ordinal back to (year, month, day). *)
Definition ord2ymd (ordinal : Z) : Z * Z * Z :=
  let n := ordinal - 1 in
  let n400 := n / DI400Y in let n := n mod DI400Y in
  let y := n400 * 400 + 1 in
  let n100 := n / DI100Y in let n := n mod DI100Y in
  let n4 := n / DI4Y in let n := n mod DI4Y in
  let n1 := n / 365 in let n := n mod 365 in
  let y := y + n100 * 100 + n4 * 4 + n1 in
  if (n1 =? 4) || (n100 =? 4) then (y - 1, 12, 31)
  else
    let leapyear := (n1 =? 3) && (negb (n4 =? 24) || (n100 =? 3)) in
    let m := Z.shiftr (n + 50) 5 in
    let preceding :=
      DAYS_BEFORE_MONTH m + (if (2 <? m) && leapyear then 1 else 0) in
    if n <? preceding then
      let m' := m - 1 in
      let preceding' := preceding -
        (DAYS_IN_MONTH m' + (if (m' =? 2) && leapyear then 1 else 0)) in
      (y, m', n - preceding' + 1)
    else (y, m, n - preceding + 1).

Definition toordinal (d : datetime) : Z := ymd2ord (year d) (month d) (day d).

Definition MAXORDINAL : Z := 3652059.
Definition US_PER_SECOND : Z := 1000000.
Definition US_PER_DAY : Z := 86400 * US_PER_SECOND.

(** Microseconds from the start of day 0 to the wall-clock reading. *)
Definition wall_us (d : datetime) : Z :=
  (toordinal d * 86400 + hour d * 3600 + minute d * 60 + second d)
    * US_PER_SECOND + microsecond d.

(** [d + timedelta(microseconds = delta)]: arithmetic on the wall-clock
    fields; the [tzinfo] is kept.  [OverflowError] outside years 1..9999. *)
Definition add (d : datetime) (delta : Z) : result datetime :=
  let t := wall_us d + delta in
  let days := t / US_PER_DAY in
  let rest := t mod US_PER_DAY in
  let secs := rest / US_PER_SECOND in
  if (0 <? days) && (days <=? MAXORDINAL) then
    let '(y, m, dd) := ord2ymd days in
    Ok (mk y m dd (secs / 3600) ((secs mod 3600) / 60) (secs mod 60)
           (rest mod US_PER_SECOND) (utcoffset d))
  else Raise (Exception "OverflowError" "date value out of range").

Definition hours (n : Z) : Z := n * 3600 * US_PER_SECOND.
Definition days (n : Z) : Z := n * US_PER_DAY.

(** [(a - b)] as a number of microseconds: the difference of the wall
    clocks, corrected by the two offsets when both values are aware;
    [TypeError] when exactly one of them is. *)
Definition sub (a b : datetime) : result Z :=
  match utcoffset a, utcoffset b with
  | None, None => Ok (wall_us a - wall_us b)
  | Some oa, Some ob =>
      Ok (wall_us a - wall_us b + (ob - oa) * US_PER_SECOND)
  | _, _ => Raise (Exception "TypeError"
              "can't subtract offset-naive and offset-aware datetimes")
  end.

(** [_format_offset]: [+HH:MM], with [:SS] when the offset has seconds. *)
Definition format_offset (off : option Z) : string :=
  match off with
  | None => ""
  | Some o =>
      let sign := if o <? 0 then "-" else "+" in
      let a := Z.abs o in
      let hh := a / 3600 in
      let mm := (a mod 3600) / 60 in
      let ss := a mod 60 in
      sign +:+ PyStr.zfill 2 hh +:+ ":" +:+ PyStr.zfill 2 mm +:+
      (if ss =? 0 then "" else ":" +:+ PyStr.zfill 2 ss)
  end.

(** [d.isoformat()]. *)
Definition isoformat (d : datetime) : string :=
  PyStr.zfill 4 (year d) +:+ "-" +:+ PyStr.zfill 2 (month d) +:+ "-" +:+
  PyStr.zfill 2 (day d) +:+ "T" +:+
  PyStr.zfill 2 (hour d) +:+ ":" +:+ PyStr.zfill 2 (minute d) +:+ ":" +:+
  PyStr.zfill 2 (second d) +:+
  (if microsecond d =? 0 then "" else "." +:+ PyStr.zfill 6 (microsecond d))
  +:+ format_offset (utcoffset d).

(** [d.strftime('%d.%m.%Y %H:%M')]. *)
Definition strftime_dmY_HM (d : datetime) : string :=
  PyStr.zfill 2 (day d) +:+ "." +:+ PyStr.zfill 2 (month d) +:+ "." +:+
  PyStr.of_int (year d) +:+ " " +:+
  PyStr.zfill 2 (hour d) +:+ ":" +:+ PyStr.zfill 2 (minute d).

(** The instant of an aware value, in microseconds; two aware values
    compare by it. *)
Definition instant (d : datetime) : Z :=
  wall_us d - default 0 (utcoffset d) * US_PER_SECOND.

Definition aware (d : datetime) : Prop := is_Some (utcoffset d).

(** [d.replace(tzinfo=...)] *)
Definition replace_tzinfo (d : datetime) (off : option Z) : datetime :=
  mk (year d) (month d) (day d) (hour d) (minute d) (second d)
     (microsecond d) off.

(** [d.astimezone(tz)] for an aware [d], where [tz] gives its offset at an
    instant of UTC: the same instant, read on the clock of [tz]. *)
Definition astimezone (tz : Z -> Z) (d : datetime) : result datetime :=
  let off := tz (instant d) in
  add (replace_tzinfo d (Some off))
      ((off - default 0 (utcoffset d)) * US_PER_SECOND).

End DT.

(** ** Data of the bot *)

(** The [.dt] of a [DTSTART] property: a [datetime.date] or a
    [datetime.datetime]. *)
Inductive dt_value : Type :=
| Date (y m d : Z)
| DateTime (d : DT.datetime).

(** A [VEVENT] component, by the four properties [get_events] reads;
    [None] is a property the component does not have. *)
Record vevent : Type := {
  DTSTART : option dt_value;
  SUMMARY : option string;
  DESCRIPTION : option string;
  LOCATION : option string
}.

(** A parsed [icalendar.Calendar]. *)
Inductive icalendar : Type := Calendar (subcomponents : list vevent).

(** The dict [get_events] builds for an occurrence. *)
Record event : Type := {
  start : DT.datetime;
  summary : string;
  description : string;
  location : string
}.

(** The rows of models.py, by the columns the scheduler reads. *)
Record User : Type := { user_id : Z }.
Record CalendarRow : Type := { url : string }.

(** How a call into the world outside the bot ends: with a value, or with
    an exception of class [cls] deriving from [Exception]. *)
Inductive outcome (A : Type) : Type :=
| Returns (a : A)
| Fails (cls msg : string).
Arguments Returns {A} a.
Arguments Fails {A} cls msg.

Definition of_outcome {A} (o : outcome A) : result A :=
  match o with
  | Returns a => Ok a
  | Fails cls msg => Raise (Exception cls msg)
  end.

Record response : Type := { status : Z; text : outcome string }.

(** What one tick of the scheduler finds outside itself. *)
Record world : Type := {
  (** [datetime.datetime.now(tz.tzlocal())] *)
  w_now : DT.datetime;
  (** the offset of [tz.tzlocal()], in seconds, at an instant of UTC *)
  w_tzlocal : Z -> Z;
  (** db_utils.get_calendar(db) *)
  w_get_calendar : outcome (option CalendarRow);
  (** [session.get(url)] *)
  w_http_get : string -> outcome response;
  (** [icalendar.Calendar.from_ical] *)
  w_from_ical : string -> outcome icalendar;
  (** db_utils.get_all_subscribed_users(db) *)
  w_get_all_subscribed_users : outcome (list User);
  (** [recurring_ical_events.of(calendar).between(start, end)] *)
  w_between : icalendar -> DT.datetime -> DT.datetime -> outcome (list vevent);
  (** [bot.send_message(user_id, text)], made at the await numbered [k] *)
  w_send_message : nat -> Z -> string -> outcome unit;
  (** [db.close()] *)
  w_db_close : outcome unit
}.

(** What the scheduler does to the world, in order. *)
Inductive io_event : Type :=
| LogWarning (msg : string)
| LogError (msg : string)
| Sleep (seconds : Z)
(** the call [bot.send_message(user_id, text)] made for occurrence [ev],
    and how it ended *)
| Delivery (user_id : Z) (ev : event) (r : result unit)
(** the call [db.close()] *)
| DbClose.

(** The scheduler's memory: the global dict [notified_events], the number
    of awaits made so far, and the journal of its effects. *)
Record state : Type := mkState {
  notified_events : gmap Z (gset string);
  awaited : nat;
  journal : list io_event
}.

Definition set_notified (f : gmap Z (gset string) -> gmap Z (gset string))
    (st : state) : state :=
  mkState (f (notified_events st)) (awaited st) (journal st).

Definition emit (e : io_event) (st : state) : state :=
  mkState (notified_events st) (awaited st) (journal st ++ [e]).

(** [event_id in notified_events[user_id]], for a key that may be absent. *)
Definition has (ne : gmap Z (gset string)) (user_id : Z) (event_id : string) : Prop :=
  exists s, ne !! user_id = Some s /\ event_id ∈ s.

(** ** The monad of the scheduler: state, journal and exceptions *)
Definition M (A : Type) : Type := state -> result A * state.

Definition ret {A} (a : A) : M A := fun st => (Ok a, st).

Definition bind {A B} (m : M A) (k : A -> M B) : M B :=
  fun st => match m st with
            | (Ok a, st') => k a st'
            | (Raise e, st') => (Raise e, st')
            end.

#[export] Instance M_ret : MRet M := @ret.
#[export] Instance M_bind : MBind M := fun A B k m => bind m k.

Definition lift {A} (r : result A) : M A := fun st => (r, st).

(** [try: body / except Exception as e: handler(e)]. *)
Definition try_except {A} (body : M A) (handler : exn -> M A) : M A :=
  fun st => match body st with
            | (Raise (Exception cls msg), st') => handler (Exception cls msg) st'
            | other => other
            end.

(** [try: body / finally: final]. *)
Definition try_finally {A} (body : M A) (final : M unit) : M A :=
  fun st => let '(r, st') := body st in
            match final st' with
            | (Ok _, st'') => (r, st'')
            | (Raise e, st'') => (Raise e, st'')
            end.

Fixpoint for_each {A} (l : list A) (body : A -> M unit) : M unit :=
  match l with
  | [] => ret tt
  | a :: l' => body a ;; for_each l' body
  end.

Definition log (e : io_event) : M unit := fun st => (Ok tt, emit e st).
Definition logging_warning (msg : string) : M unit := log (LogWarning msg).
Definition logging_error (msg : string) : M unit := log (LogError msg).

(** The same for computations that only raise. *)
Definition and_then {A B} (r : result A) (k : A -> result B) : result B :=
  match r with
  | Ok a => k a
  | Raise e => Raise e
  end.

#[export] Instance result_ret : MRet result := @Ok.
#[export] Instance result_bind : MBind result := fun A B k r => and_then r k.

Fixpoint map_result {A B} (f : A -> result B) (l : list A) : result (list B) :=
  match l with
  | [] => Ok []
  | a :: l' => b ← f a; bs ← map_result f l'; Ok (b :: bs)
  end.

Section Scheduler.

(** config.py *)
Variable CHECK_INTERVAL : Z.
Variable NOTIFICATION_TIME : Z.

(** [cancelled k]: the task of the scheduler is cancelled while it is
    suspended at its await numbered [k]. *)
Variable cancelled : nat -> bool.

(** [others k d]: the dict [notified_events] as the other tasks of the event
    loop leave it, having found it as [d], while the scheduler is suspended
    at its await numbered [k].  The other task that writes to the dict is
    the second [check_upcoming_events]: its [clear()] (lines 639, 647), its
    [notified_events[user_id] = set()] (line 663), its [add] (line 683)
    and its pruning (line 690) are all made between two of its awaits. *)
Variable others : nat -> gmap Z (gset string) -> gmap Z (gset string).

(** The state in which the coroutine resumes after a suspension. *)
Definition suspend (st : state) : state :=
  mkState (others (awaited st) (notified_events st)) (S (awaited st))
          (journal st).

(** An [await]: the coroutine is suspended and the other tasks run; it
    resumes with the outcome of the awaited call, or with
    [CancelledError]. *)
Definition await {A} (op : nat -> outcome A) : M A :=
  fun st =>
    let k := awaited st in
    if cancelled k then (Raise CancelledError, suspend st)
    else (of_outcome (op k), suspend st).

Definition asyncio_sleep (seconds : Z) : M unit :=
  log (Sleep seconds);; await (fun _ => Returns tt).

(** *** calendar_utils.py *)

Definition fetch_calendar (w : world) (url : string) : M (option icalendar) :=
  try_except
    (response ← await (fun _ => w_http_get w url);
     if status response =? 200 then
       ical_data ← await (fun _ => text response);
       calendar ← lift (of_outcome (w_from_ical w ical_data));
       mret (Some calendar)
     else
       logging_error ("Ошибка при загрузке календаря: " +:+
                      PyStr.of_int (status response));;
       mret None)
    (fun e =>
       logging_error ("Ошибка при загрузке календаря: " +:+ str_exn e);;
       mret None).

(** The body of the loop of [get_events]. *)
Definition format_event (w : world) (ev : vevent) : result event :=
  match DTSTART ev with
  | None => Raise (Exception "AttributeError"
                     "'NoneType' object has no attribute 'dt'")
  | Some dt =>
      let start :=
        match dt with
        | Date y m d => DT.mk y m d 0 0 0 0 None
        | DateTime d => d
        end in
      start ← match DT.utcoffset start with
               | None => DT.astimezone (w_tzlocal w) (DT.replace_tzinfo start (Some 0))
               | Some _ => Ok start
               end;
      Ok {| start := start;
            summary := default "Без названия" (SUMMARY ev);
            description := default "Без описания" (DESCRIPTION ev);
            location := default "Без места" (LOCATION ev) |}
  end.

(** [sorted(l, key=lambda x: x['start'])]: stable; the starts are aware
    when the list is sorted, and aware values compare by their instant. *)
Fixpoint insert_by_start (x : event) (l : list event) : list event :=
  match l with
  | [] => [x]
  | y :: l' =>
      if DT.instant (start x) <=? DT.instant (start y) then x :: y :: l'
      else y :: insert_by_start x l'
  end.

Definition sorted_by_start (l : list event) : list event :=
  foldr insert_by_start [] l.

Definition get_events (w : world) (calendar : option icalendar)
    (start_date end_date : DT.datetime) : result (list event) :=
  match calendar with
  | None => Ok []
  | Some cal =>
      events ← of_outcome (w_between w cal start_date end_date);
      formatted_events ← map_result (format_event w) events;
      Ok (sorted_by_start formatted_events)
  end.

(** *** bot.py: the dict of sent notifications *)

Definition getitem (user_id : Z) : M (gset string) :=
  fun st => match notified_events st !! user_id with
            | Some s => (Ok s, st)
            | None => (Raise (Exception "KeyError" (PyStr.of_int user_id)), st)
            end.

Definition setitem (user_id : Z) (s : gset string) : M unit :=
  fun st => (Ok tt, set_notified (insert user_id s) st).

(** [notified_events[user_id].add(event_id)] *)
Definition mark (user_id : Z) (event_id : string) : M unit :=
  s ← getitem user_id; setitem user_id ({[event_id]} ∪ s).

(** [notified_events.clear()] *)
Definition clear : M unit :=
  fun st => (Ok tt, set_notified (fun _ => ∅) st).

Definition keys : M (list Z) :=
  fun st => (Ok (map fst (map_to_list (notified_events st))), st).

(** *** bot.py: one occurrence for one recipient *)

Definition event_id_of (ev : event) : string :=
  summary ev +:+ "_" +:+ DT.isoformat (start ev).

(** [(event_start - now).total_seconds() / 60].  Python computes the
    quotient in floating point; it is kept exact here.  The two comparisons
    of line 670 come out the same on both: the difference is a whole number
    of microseconds, the bounds are integers, and the rounding of a float
    division is monotone and far finer than a microsecond at these sizes. *)
Definition time_diff (event_start now : DT.datetime) : result Q :=
  d ← DT.sub event_start now; Ok ((d # 1000000) / 60)%Q.

(** [0 <= time_diff <= NOTIFICATION_TIME] *)
Definition in_lead (td : Q) : bool :=
  Qle_bool 0 td && Qle_bool td (inject_Z NOTIFICATION_TIME).

Definition notification_text (ev : event) : string :=
  "🔔 Скоро начнется событие!" +:+ PyStr.nl +:+ PyStr.nl +:+
  "🕒 " +:+ DT.strftime_dmY_HM (start ev) +:+ PyStr.nl +:+
  "📌 " +:+ summary ev +:+ PyStr.nl +:+
  (if String.eqb (location ev) "Без места" then ""
   else "📍 " +:+ location ev +:+ PyStr.nl) +:+
  (if String.eqb (description ev) "Без описания" then ""
   else "ℹ️ " +:+ description ev +:+ PyStr.nl).

Definition send_message (w : world) (user_id : Z) (ev : event) (text : string)
    : M unit :=
  fun st =>
    let '(r, st') := await (fun k => w_send_message w k user_id text) st in
    (r, emit (Delivery user_id ev r) st').

Definition delivery_error (user_id : Z) (e : exn) : string :=
  "Ошибка при отправке уведомления пользователю " +:+ PyStr.of_int user_id
  +:+ ": " +:+ str_exn e.

Definition notify (w : world) (now : DT.datetime) (user_id : Z) (ev : event)
    : M unit :=
  let event_start := start ev in
  time_diff ← lift (time_diff event_start now);
  let event_id := event_id_of ev in
  if in_lead time_diff then
    s ← getitem user_id;
    if bool_decide (event_id ∈ s) then mret tt
    else
      try_except
        (send_message w user_id ev (notification_text ev);;
         mark user_id event_id)
        (fun e =>
           logging_error (delivery_error user_id e);;
           asyncio_sleep 1)
  else mret tt.

(** [if user_id not in notified_events: notified_events[user_id] = set()] *)
Definition ensure_set (user_id : Z) : M unit :=
  fun st => match notified_events st !! user_id with
            | None => setitem user_id ∅ st
            | Some _ => (Ok tt, st)
            end.

Definition notify_user (w : world) (now : DT.datetime) (events : list event)
    (user : User) : M unit :=
  let user_id := user_id user in
  ensure_set user_id;;
  for_each events (notify w now user_id).

(** The loop over the recipients, lines 659 to 686. *)
Definition notify_users (w : world) (now : DT.datetime) (users : list User)
    (events : list event) : M unit :=
  for_each users (notify_user w now events).

(** *** bot.py: forgetting old notifications *)

(** [(now - datetime.timedelta(days=1)).isoformat()[:10]] *)
Definition cutoff (now : DT.datetime) : result string :=
  d ← DT.add now (DT.days (-1)); Ok (PyStr.take 10 (DT.isoformat d)).

(** [event_id.split('_')[1].startswith(cutoff)] *)
Definition stale (now : DT.datetime) (event_id : string) : result bool :=
  match PyStr.split "_" event_id !! 1%nat with
  | None => Raise (Exception "IndexError" "list index out of range")
  | Some field => c ← cutoff now; Ok (PyStr.startswith field c)
  end.

Fixpoint fresh (now : DT.datetime) (ids : list string) : result (list string) :=
  match ids with
  | [] => Ok []
  | event_id :: ids' =>
      b ← stale now event_id;
      rest ← fresh now ids';
      Ok (if (b : bool) then rest else event_id :: rest)
  end.

(** The set comprehension; a set is gone through in the order of its
    [elements]. *)
Definition comprehension (now : DT.datetime) (s : gset string)
    : result (gset string) :=
  l ← fresh now (elements s); Ok (list_to_set l).

(** The loop over the keys of the dict.  A Python dict is gone through in
    the order its keys were inserted, which a [gmap] does not keep; the
    order shows only when a comprehension raises. *)
Definition prune (now : DT.datetime) : M unit :=
  ks ← keys;
  for_each ks (fun user_id =>
    s ← getitem user_id;
    s' ← lift (comprehension now s);
    setitem user_id s').

(** *** bot.py: the loop *)

Inductive flow : Type := Continue | Fallthrough.

(** [db.close()], a call into SQLAlchemy that may raise. *)
Definition db_close (w : world) : M unit :=
  log DbClose;; lift (of_outcome (w_db_close w)).

Definition tick_body (w : world) (now : DT.datetime) : M flow :=
  calendar_obj ← lift (of_outcome (w_get_calendar w));
  match calendar_obj with
  | None =>
      logging_warning "Календарь не найден в базе данных";;
      clear;;
      asyncio_sleep CHECK_INTERVAL;;
      mret Continue
  | Some calendar_obj =>
      calendar ← fetch_calendar w (url calendar_obj);
      match calendar with
      | None =>
          logging_error ("Не удалось загрузить календарь по URL: " +:+
                         url calendar_obj);;
          clear;;
          asyncio_sleep CHECK_INTERVAL;;
          mret Continue
      | Some calendar =>
          subscribed_users ← lift (of_outcome (w_get_all_subscribed_users w));
          end_time ← lift (DT.add now (DT.hours 1));
          events ← lift (get_events w (Some calendar) now end_time);
          notify_users w now subscribed_users events;;
          prune now;;
          mret Fallthrough
      end
  end.

(** The part of a turn of [while True] that is under [try], with its
    [finally].  The two statements before it read the clock ([w_now]) and
    build the session object with [SessionLocal()], which makes no call to
    the database. *)
Definition guarded (w : world) : M flow :=
  let now := w_now w in
  try_finally
    (try_except (tick_body w now)
       (fun e =>
          logging_error ("Ошибка при проверке событий: " +:+ str_exn e);;
          mret Fallthrough))
    (db_close w).

(** One turn of [while True]: after a [continue] the next turn begins at
    once, otherwise after the sleep of line 697. *)
Definition tick (w : world) : M unit :=
  fl ← guarded w;
  match fl with
  | Continue => mret tt
  | Fallthrough => asyncio_sleep CHECK_INTERVAL
  end.

(** [check_upcoming_events], for as many turns as there are worlds; [Ok]
    when the loop is still running after them. *)
Fixpoint check_upcoming_events (ws : list world) : M unit :=
  match ws with
  | [] => mret tt
  | w :: ws' => tick w;; check_upcoming_events ws'
  end.

End Scheduler.

(** * The vocabulary of the properties *)

(** ** The journal *)

(** What was added to the journal between [st0] and [st]. *)
Definition since (st0 st : state) : list io_event :=
  drop (length (journal st0)) (journal st).

(** A send for the occurrence identity [event_id] to [user_id] is in the
    stretch [seg] of the journal. *)
Definition attempted (seg : list io_event) (user_id : Z) (event_id : string) : Prop :=
  exists ev r, In (Delivery user_id ev r) seg /\ event_id_of ev = event_id.

(** The same, for a send that returned. *)
Definition delivered (seg : list io_event) (user_id : Z) (event_id : string) : Prop :=
  exists ev, In (Delivery user_id ev (Ok tt)) seg /\ event_id_of ev = event_id.

(** In [seg], every send that raised an [Exception] is followed at once by
    the error in the log and by a sleep of one second. *)
Definition failures_followed (seg : list io_event) : Prop :=
  forall (l1 l2 : list io_event) user_id ev cls msg,
    seg = l1 ++ Delivery user_id ev (Raise (Exception cls msg)) :: l2 ->
    exists l3, l2 = LogError (delivery_error user_id (Exception cls msg))
                    :: Sleep 1 :: l3.

(** A stretch of the journal with no send in it. *)
Definition quiet (seg : list io_event) : Prop :=
  forall u ev r, ~ In (Delivery u ev r) seg.

(** The pair is already recorded at [st0], or a send for it is in the
    journal between [st0] and [st]. *)
Definition covered (st0 st : state) (u : Z) (id : string) : Prop :=
  has (notified_events st0) u id \/
  exists seg, journal st = journal st0 ++ seg /\ attempted seg u id.

(** [m] only adds to the journal, and what it adds has every failed send
    followed by its log entry and its pause. *)
Definition orderly {A} (m : M A) : Prop :=
  forall st, exists seg,
    journal (m st).2 = journal st ++ seg /\ failures_followed seg.

(** ** Cancellation *)

(** A result other than a cancellation. *)
Definition gentle {A} (r : result A) : Prop := r <> Raise CancelledError.

(** A step that is never left by a cancellation. *)
Definition polite {A} (m : M A) : Prop := forall st, gentle (m st).1.

(** ** The lead time and the loop over the recipients *)

Definition minutes (n : Z) : Z := n * 60000000.

Section Vocabulary.

Variable NOTIFICATION_TIME : Z.
Variable cancelled : nat -> bool.
Variable others : nat -> gmap Z (gset string) -> gmap Z (gset string).
Variable w : world.
Variable now : DT.datetime.
Variable users : list User.
Variable events : list event.

(** The occurrence starts between 0 and [NOTIFICATION_TIME] minutes from
    [now]. *)
Definition within_lead (ev : event) : Prop :=
  exists td, time_diff (start ev) now = Ok td /\
             (0 <= td)%Q /\ (td <= inject_Z NOTIFICATION_TIME)%Q.

(** How the send for [ev] to [user_id] ends when it is made at await [k]. *)
Definition send_result (k : nat) (user_id : Z) (ev : event) : result unit :=
  if cancelled k then Raise CancelledError
  else of_outcome (w_send_message w k user_id (notification_text ev)).

(** What [notify] does, case by case.  The test of line 670 is made on
    the dict of [st]; when a send is made the coroutine is suspended, and
    it goes on with the dict as the other tasks have left it. *)
Inductive notify_does (user_id : Z) (ev : event) (st : state)
  : result unit -> state -> Prop :=
| notify_no_time e :
    time_diff (start ev) now = Raise e ->
    notify_does user_id ev st (Raise e) st
| notify_not_due td :
    time_diff (start ev) now = Ok td ->
    in_lead NOTIFICATION_TIME td = false ->
    notify_does user_id ev st (Ok tt) st
| notify_no_key :
    within_lead ev ->
    notified_events st !! user_id = None ->
    notify_does user_id ev st
      (Raise (Exception "KeyError" (PyStr.of_int user_id))) st
| notify_known s :
    within_lead ev ->
    notified_events st !! user_id = Some s ->
    event_id_of ev ∈ s ->
    notify_does user_id ev st (Ok tt) st
| notify_sent s s1 :
    within_lead ev ->
    notified_events st !! user_id = Some s ->
    event_id_of ev ∉ s ->
    send_result (awaited st) user_id ev = Ok tt ->
    others (awaited st) (notified_events st) !! user_id = Some s1 ->
    notify_does user_id ev st (Ok tt)
      (mkState (<[user_id := {[event_id_of ev]} ∪ s1]>
                  (others (awaited st) (notified_events st)))
               (S (awaited st))
               (journal st ++ [Delivery user_id ev (Ok tt)]))
| notify_unmarked s :
    within_lead ev ->
    notified_events st !! user_id = Some s ->
    event_id_of ev ∉ s ->
    send_result (awaited st) user_id ev = Ok tt ->
    others (awaited st) (notified_events st) !! user_id = None ->
    notify_does user_id ev st
      (if cancelled (S (awaited st)) then Raise CancelledError else Ok tt)
      (mkState (others (S (awaited st))
                  (others (awaited st) (notified_events st)))
               (S (S (awaited st)))
               (journal st ++
                  [Delivery user_id ev (Ok tt);
                   LogError (delivery_error user_id
                               (Exception "KeyError" (PyStr.of_int user_id)));
                   Sleep 1]))
| notify_failed s cls msg :
    within_lead ev ->
    notified_events st !! user_id = Some s ->
    event_id_of ev ∉ s ->
    send_result (awaited st) user_id ev = Raise (Exception cls msg) ->
    notify_does user_id ev st
      (if cancelled (S (awaited st)) then Raise CancelledError else Ok tt)
      (mkState (others (S (awaited st))
                  (others (awaited st) (notified_events st)))
               (S (S (awaited st)))
               (journal st ++
                  [Delivery user_id ev (Raise (Exception cls msg));
                   LogError (delivery_error user_id (Exception cls msg));
                   Sleep 1]))
| notify_cancelled s :
    within_lead ev ->
    notified_events st !! user_id = Some s ->
    event_id_of ev ∉ s ->
    send_result (awaited st) user_id ev = Raise CancelledError ->
    notify_does user_id ev st (Raise CancelledError)
      (mkState (others (awaited st) (notified_events st)) (S (awaited st))
               (journal st ++ [Delivery user_id ev (Raise CancelledError)])).

(** What holds of the state [st] reached from [st0] at any point of the
    loop over the recipients, when no other task touches the dict. *)
Definition phase_inv (st0 st : state) : Prop :=
  exists seg,
    journal st = journal st0 ++ seg /\
    (forall u id, has (notified_events st) u id <->
                  has (notified_events st0) u id \/ delivered seg u id) /\
    (forall u ev r, In (Delivery u ev r) seg ->
       In u (map user_id users) /\ In ev events /\ within_lead ev /\
       ~ has (notified_events st0) u (event_id_of ev) /\
       exists k, r = send_result k u ev) /\
    failures_followed seg.

End Vocabulary.

(** ** The calendar *)

(** The state in which the loop over the recipients begins when the tick
    began in [st]: the two awaits of the download have been made. *)
Definition after_fetch (others : nat -> gmap Z (gset string) -> gmap Z (gset string))
    (st : state) : state :=
  suspend others (suspend others st).

(** The download that begins at await [k] brings no calendar: it fails on
    the network, or is answered with a status other than 200, or its body
    cannot be read or parsed; and the task is not cancelled while it waits
    for the answer or for the body. *)
Definition fetch_fails (cancelled : nat -> bool) (w : world) (url : string)
    (k : nat) : Prop :=
  cancelled k = false /\
  match w_http_get w url with
  | Fails _ _ => True
  | Returns response =>
      status response <> 200 \/
      (cancelled (S k) = false /\
       match text response with
       | Fails _ _ => True
       | Returns ical_data =>
           exists cls msg, w_from_ical w ical_data = Fails cls msg
       end)
  end.

(** The calendar at [url] is had: the download is answered with status
    200 and its body parses to [cal]. *)
Definition fetched (w : world) (url : string) (cal : icalendar) : Prop :=
  exists response ical_data,
    w_http_get w url = Returns response /\
    status response = 200 /\
    text response = Returns ical_data /\
    w_from_ical w ical_data = Returns cal.

(** The tick of [w] gets as far as its loop over the recipients, with
    [users] the subscribed recipients and [events] the occurrences of the
    window from now to one hour later. *)
Definition tick_delivers (w : world) (users : list User) (events : list event)
    : Prop :=
  exists row cal end_time,
    w_get_calendar w = Returns (Some row) /\
    fetched w (url row) cal /\
    w_get_all_subscribed_users w = Returns users /\
    DT.add (w_now w) (DT.hours 1) = Ok end_time /\
    get_events w (Some cal) (w_now w) end_time = Ok events.

(** No calendar is configured, or the one configured cannot be had. *)
Definition calendar_unavailable (cancelled : nat -> bool) (w : world) (st : state)
    : Prop :=
  w_get_calendar w = Returns None \/
  exists row, w_get_calendar w = Returns (Some row) /\
              fetch_fails cancelled w (url row) (awaited st).

(** The entry the scheduler logs when it finds no calendar. *)
Definition unavailable_entry (w : world) : io_event :=
  match w_get_calendar w with
  | Returns (Some row) =>
      LogError ("Не удалось загрузить календарь по URL: " +:+ url row)
  | _ => LogWarning "Календарь не найден в базе данных"
  end.

(** The state in which the sleep of a tick without its calendar begins,
    when the entry [e] is logged from [st]: the dict has been cleared. *)
Definition cleared (e : io_event) (st : state) : state :=
  mkState ∅ (awaited st) (journal st ++ [e]).

(** Closing the session of [w] raises [e]. *)
Definition close_fails (w : world) (e : exn) : Prop :=
  exists cls msg, w_db_close w = Fails cls msg /\ e = Exception cls msg.

(** The occurrence [ev] has the summary, description and location of the
    component [r], with the fixed text where [r] has none. *)
Definition carries (r : vevent) (ev : event) : Prop :=
  summary ev = match SUMMARY r with Some s => s | None => "Без названия" end /\
  description ev = match DESCRIPTION r with Some s => s | None => "Без описания" end /\
  location ev = match LOCATION r with Some s => s | None => "Без места" end.

(** ** The dict of sent notifications *)

(** [has] as a test. *)
Definition hasb (ne : gmap Z (gset string)) (user_id : Z) (event_id : string) : bool :=
  match ne !! user_id with
  | Some s => bool_decide (event_id ∈ s)
  | None => false
  end.

(** The dict [ne] is [ne0] with some identities taken out, none of them
    one that [stale] does not find stale. *)
Definition thinned (now : DT.datetime) (ne0 ne : gmap Z (gset string)) : Prop :=
  forall u,
    match ne0 !! u, ne !! u with
    | Some s0, Some s =>
        s ⊆ s0 /\ forall id, id ∈ s0 -> stale now id <> Ok true -> id ∈ s
    | None, None => True
    | _, _ => False
    end.

(** ** Worlds and states to run the scheduler on *)

Definition never_cancelled : nat -> bool := fun _ => false.

(** No other task touches the dict. *)
Definition nobody : nat -> gmap Z (gset string) -> gmap Z (gset string) :=
  fun _ d => d.

(** The other [check_upcoming_events] finds no calendar, and runs its
    [notified_events.clear()], while this one is suspended at its await
    numbered [k0]. *)
Definition clears_at (k0 : nat)
    : nat -> gmap Z (gset string) -> gmap Z (gset string) :=
  fun k d => if Nat.eqb k k0 then ∅ else d.

Definition st_empty : state := mkState ∅ 0 [].

Definition noon : DT.datetime := DT.mk 2024 5 6 12 0 0 0 (Some 10800).

Definition occurrence (s : string) (h m : Z) : event :=
  {| start := DT.mk 2024 5 6 h m 0 0 (Some 10800);
     summary := s;
     description := "Без описания";
     location := "Без места" |}.

(** Occurrences 10 minutes back, 5, 20 and 90 minutes ahead of [noon]. *)
Definition noon_events : list event :=
  [occurrence "Past" 11 50; occurrence "Soon" 12 5;
   occurrence "Later" 12 20; occurrence "Far" 13 30].

Definition alice : User := {| user_id := 1 |}.
Definition bob : User := {| user_id := 2 |}.

Definition vevent_of (ev : event) : vevent :=
  {| DTSTART := Some (DateTime (start ev));
     SUMMARY := Some (summary ev);
     DESCRIPTION := None;
     LOCATION := None |}.

(** A world where the calendar is fetched, the expansion yields
    [evs] whatever the window, both recipients are subscribed, and every
    send to [alice] is refused. *)
Definition world_of (now : DT.datetime) (evs : list event) : world :=
  {| w_now := now;
     w_tzlocal := fun _ => 10800;
     w_get_calendar := Returns (Some {| url := "https://example.org/team.ics" |});
     w_http_get := fun _ => Returns {| status := 200; text := Returns "BEGIN:VCALENDAR" |};
     w_from_ical := fun _ => Returns (Calendar (map vevent_of evs));
     w_get_all_subscribed_users := Returns [alice; bob];
     w_between := fun _ _ _ => Returns (map vevent_of evs);
     w_send_message := fun _ u _ =>
       if u =? 1 then Fails "TelegramForbiddenError" "bot was blocked by the user"
       else Returns tt;
     w_db_close := Returns tt |}.

Definition soon : event := occurrence "Soon" 12 5.

Definition soon_id : string := "Soon_2024-05-06T12:05:00+03:00".

(** A state in which the occurrence five minutes ahead is recorded for
    the second recipient. *)
Definition st_marked : state := mkState {[ 2 := {[ soon_id ]} ]} 0 [].

(** A world like [world_of], where the server answers 503. *)
Definition world_down (now : DT.datetime) : world :=
  {| w_now := now;
     w_tzlocal := fun _ => 10800;
     w_get_calendar := Returns (Some {| url := "https://example.org/team.ics" |});
     w_http_get := fun _ => Returns {| status := 503; text := Returns "" |};
     w_from_ical := fun _ => Returns (Calendar []);
     w_get_all_subscribed_users := Returns [alice; bob];
     w_between := fun _ _ _ => Returns [];
     w_send_message := fun _ _ _ => Returns tt;
     w_db_close := Returns tt |}.

(** A world like [world_of], where the expansion of the calendar raises. *)
Definition world_broken (now : DT.datetime) : world :=
  {| w_now := now;
     w_tzlocal := fun _ => 10800;
     w_get_calendar := Returns (Some {| url := "https://example.org/team.ics" |});
     w_http_get := fun _ => Returns {| status := 200; text := Returns "BEGIN:VCALENDAR" |};
     w_from_ical := fun _ => Returns (Calendar []);
     w_get_all_subscribed_users := Returns [alice; bob];
     w_between := fun _ _ _ => Fails "ValueError" "invalid recurrence rule";
     w_send_message := fun _ _ _ => Returns tt;
     w_db_close := Returns tt |}.

Definition standup_friday : event :=
  {| start := DT.mk 2024 5 3 10 0 0 0 (Some 10800);
     summary := "Standup";
     description := "Без описания";
     location := "Без места" |}.

Definition team_sync_sunday : event :=
  {| start := DT.mk 2024 5 5 10 0 0 0 (Some 10800);
     summary := "Team_sync";
     description := "Без описания";
     location := "Без места" |}.

(** An occurrence given in UTC, at 00:40 on the 7th of May in the zone of
    the bot. *)
Definition standup_tonight : event :=
  {| start := DT.mk 2024 5 6 21 40 0 0 (Some 0);
     summary := "Standup";
     description := "Без описания";
     location := "Без места" |}.

Definition half_past_midnight : DT.datetime :=
  DT.mk 2024 5 7 0 30 0 0 (Some 10800).

Definition st_old : state :=
  mkState {[ 2 := {[ event_id_of standup_friday; event_id_of team_sync_sunday ]} ]}
          0 [].

Definition st_tonight : state :=
  mkState {[ 2 := {[ event_id_of standup_tonight ]} ]} 0 [].

(** A component with a start and nothing else, and one whose three texts
    are there and empty. *)
Definition bare : vevent :=
  {| DTSTART := Some (DateTime (start soon));
     SUMMARY := None; DESCRIPTION := None; LOCATION := None |}.

Definition blank : vevent :=
  {| DTSTART := Some (DateTime (start soon));
     SUMMARY := Some ""; DESCRIPTION := Some ""; LOCATION := Some "" |}.

Definition world_raw (raw : list vevent) : world :=
  {| w_now := noon;
     w_tzlocal := fun _ => 10800;
     w_get_calendar := Returns (Some {| url := "https://example.org/team.ics" |});
     w_http_get := fun _ => Returns {| status := 200; text := Returns "BEGIN:VCALENDAR" |};
     w_from_ical := fun _ => Returns (Calendar raw);
     w_get_all_subscribed_users := Returns [alice; bob];
     w_between := fun _ _ _ => Returns raw;
     w_send_message := fun _ _ _ => Returns tt;
     w_db_close := Returns tt |}.

Definition one_o_clock : DT.datetime := DT.mk 2024 5 6 13 0 0 0 (Some 10800).

(** A second occurrence within the lead time, seven minutes ahead of
    [noon]. *)
Definition also : event := occurrence "Also" 12 7.

(** A world like [world_of], where closing the session raises. *)
Definition world_unclosed (now : DT.datetime) (evs : list event) : world :=
  {| w_now := now;
     w_tzlocal := fun _ => 10800;
     w_get_calendar := Returns (Some {| url := "https://example.org/team.ics" |});
     w_http_get := fun _ => Returns {| status := 200; text := Returns "BEGIN:VCALENDAR" |};
     w_from_ical := fun _ => Returns (Calendar (map vevent_of evs));
     w_get_all_subscribed_users := Returns [alice; bob];
     w_between := fun _ _ _ => Returns (map vevent_of evs);
     w_send_message := fun _ _ _ => Returns tt;
     w_db_close := Fails "OperationalError" "server closed the connection unexpectedly" |}.

(** * Properties *)

(** ** The embedding on examples *)

Example split_two : PyStr.split "_" "Sync_2024-01-01T10:00:00+03:00"
                    = ["Sync"; "2024-01-01T10:00:00+03:00"].
Proof. reflexivity. Qed.

Example zfill_ex : PyStr.zfill 2 7 = "07" /\ PyStr.zfill 4 2024 = "2024" /\
                   PyStr.of_int 200 = "200" /\ PyStr.of_int (-5) = "-5" /\
                   PyStr.of_int 0 = "0" /\
                   PyStr.zfill 4 (-5) = "-005" /\ PyStr.zfill 6 1500 = "001500".
Proof. repeat split; reflexivity. Qed.

Example utf8_ex : String.length "Без места" = 17%nat.
Proof. reflexivity. Qed.

Example iso_ex :
  DT.isoformat (DT.mk 2024 1 2 0 30 0 0 (Some 10800)) = "2024-01-02T00:30:00+03:00"
  /\ DT.isoformat (DT.mk 2024 1 1 21 40 0 0 (Some 0)) = "2024-01-01T21:40:00+00:00"
  /\ DT.isoformat (DT.mk 2024 1 1 21 40 0 1500 (Some (-16200))) = "2024-01-01T21:40:00.001500-04:30"
  /\ DT.isoformat (DT.mk 2024 1 1 21 40 0 0 None) = "2024-01-01T21:40:00".
Proof. repeat split; reflexivity. Qed.

Example ord_ex :
  DT.ymd2ord 2024 3 1 = 738946 /\ DT.ord2ymd 738946 = (2024, 3, 1) /\
  DT.ord2ymd 738945 = (2024, 2, 29) /\ DT.ord2ymd 1 = (1, 1, 1) /\
  DT.ord2ymd DT.MAXORDINAL = (9999, 12, 31) /\ DT.ord2ymd 738885 = (2023, 12, 31).
Proof. repeat split; reflexivity. Qed.

Example add_ex :
  DT.add (DT.mk 2024 3 1 0 30 0 0 (Some 10800)) (DT.days (-1))
    = Ok (DT.mk 2024 2 29 0 30 0 0 (Some 10800)) /\
  DT.add (DT.mk 2023 12 31 23 30 0 0 (Some 10800)) (DT.hours 1)
    = Ok (DT.mk 2024 1 1 0 30 0 0 (Some 10800)) /\
  DT.add (DT.mk 1 1 1 12 0 0 0 (Some 0)) (DT.days (-1))
    = Raise (Exception "OverflowError" "date value out of range").
Proof. repeat split; reflexivity. Qed.

(** ** The loops *)

Lemma bind_unfold {A B} (m : M A) (k : A -> M B) st :
  (m ≫= k) st = match m st with
                | (Ok a, st') => k a st'
                | (Raise e, st') => (Raise e, st')
                end.
Proof. reflexivity. Qed.

Lemma for_each_cons {A} (a : A) l body st :
  for_each (a :: l) body st =
  match body a st with
  | (Ok _, st') => for_each l body st'
  | (Raise e, st') => (Raise e, st')
  end.
Proof. reflexivity. Qed.

(** A property of the state kept by every turn of a loop is kept by the
    loop, however it ends. *)
Lemma for_each_inv {A} (I : state -> Prop) (l : list A) body :
  (forall a st, In a l -> I st -> I (body a st).2) ->
  forall st, I st -> I (for_each l body st).2.
Proof.
  induction l as [|a l IH]; intros Hbody st HI; [exact HI|].
  rewrite for_each_cons.
  pose proof (Hbody a st (or_introl eq_refl) HI) as H1.
  destruct (body a st) as [[[]|e] st1]; simpl in *; [|exact H1].
  apply IH; [|exact H1].
  intros b st2 Hb. apply Hbody. now right.
Qed.

(** A loop whose turns all return, each establishing a property [P] that
    the later turns keep, ends with [P] for every element. *)
Lemma for_each_post {A} (I : state -> Prop) (P : A -> state -> Prop)
    (l : list A) body :
  (forall a st, In a l -> I st ->
     (body a st).1 = Ok tt /\ I (body a st).2 /\ P a (body a st).2) ->
  (forall a b st, In a l -> In b l -> I st -> P a st -> P a (body b st).2) ->
  forall st, I st ->
    (for_each l body st).1 = Ok tt /\ I (for_each l body st).2 /\
    forall a, In a l -> P a (for_each l body st).2.
Proof.
  induction l as [|a l IH]; intros Hbody Hstable st HI.
  { split; [done|]. split; [exact HI|]. intros a []. }
  rewrite for_each_cons.
  destruct (Hbody a st (or_introl eq_refl) HI) as (H1 & H2 & H3).
  destruct (body a st) as [r st1]; simpl in *; subst r.
  destruct (IH (fun b st2 Hb => Hbody b st2 (or_intror Hb))
               (fun x y st2 Hx Hy => Hstable x y st2 (or_intror Hx) (or_intror Hy))
               st1 H2) as (R1 & R2 & R3).
  split; [exact R1|]. split; [exact R2|].
  intros b [<-|Hb]; [|now apply R3].
  apply (for_each_inv (fun st2 => I st2 /\ P a st2) l body); [|now split].
  intros c st2 Hc [HI2 HP2]. split.
  - now apply Hbody; [right|].
  - apply Hstable; simpl; auto.
Qed.

(** ** One occurrence for one recipient *)

Section Delivering.

Variable NOTIFICATION_TIME : Z.
Variable cancelled : nat -> bool.
Variable others : nat -> gmap Z (gset string) -> gmap Z (gset string).
Variable w : world.
Variable now : DT.datetime.

#[local] Abbreviation due := (within_lead NOTIFICATION_TIME now).
#[local] Abbreviation does :=
  (notify_does NOTIFICATION_TIME cancelled others w now).

Lemma in_lead_within ev td :
  time_diff (start ev) now = Ok td ->
  in_lead NOTIFICATION_TIME td = true -> due ev.
Proof.
  intros Htd Hl. exists td. split; [exact Htd|].
  unfold in_lead in Hl. apply andb_true_iff in Hl as [H1 H2].
  split; now apply Qle_bool_iff.
Qed.

Lemma within_in_lead ev td :
  time_diff (start ev) now = Ok td ->
  due ev -> in_lead NOTIFICATION_TIME td = true.
Proof.
  intros Htd (td' & Htd' & H1 & H2).
  rewrite Htd in Htd'. injection Htd' as <-.
  unfold in_lead. apply andb_true_iff. split; now apply Qle_bool_iff.
Qed.

Lemma notify_spec user_id ev st :
  does user_id ev st
    (notify NOTIFICATION_TIME cancelled others w now user_id ev st).1
    (notify NOTIFICATION_TIME cancelled others w now user_id ev st).2.
Proof.
  unfold notify. rewrite bind_unfold. unfold lift.
  destruct (time_diff (start ev) now) as [td|e] eqn:Htd; simpl;
    [|now apply notify_no_time].
  destruct (in_lead NOTIFICATION_TIME td) eqn:Hl;
    [|now apply notify_not_due with td].
  pose proof (in_lead_within ev td Htd Hl) as Hw.
  rewrite bind_unfold. unfold getitem.
  destruct (notified_events st !! user_id) as [s|] eqn:Hs; simpl;
    [|now apply notify_no_key].
  case_bool_decide as Hin; [now apply notify_known with s|].
  unfold try_except. rewrite bind_unfold.
  unfold send_message, await, suspend.
  pose proof (notify_sent NOTIFICATION_TIME cancelled others w now user_id ev
                st s) as Hsent.
  pose proof (notify_unmarked NOTIFICATION_TIME cancelled others w now user_id
                ev st s Hw Hs Hin) as Hunmarked.
  pose proof (notify_failed NOTIFICATION_TIME cancelled others w now user_id ev
                st s) as Hfailed.
  pose proof (notify_cancelled NOTIFICATION_TIME cancelled others w now user_id
                ev st s Hw Hs Hin) as Hcanc.
  unfold send_result in *.
  destruct (cancelled (awaited st)) eqn:Hc; simpl; [now apply Hcanc|].
  destruct (w_send_message w (awaited st) user_id (notification_text ev))
    as [[]|cls msg] eqn:Hsend; simpl.
  - unfold mark, getitem, setitem. rewrite bind_unfold. simpl.
    destruct (others (awaited st) (notified_events st) !! user_id)
      as [s1|] eqn:Hs1; simpl.
    + now apply (Hsent s1).
    + specialize (Hunmarked eq_refl eq_refl).
      unfold logging_error, log, asyncio_sleep, await, suspend.
      repeat (rewrite bind_unfold; simpl).
      unfold emit; simpl. rewrite <- !app_assoc; simpl.
      destruct (cancelled (S (awaited st))); simpl; exact Hunmarked.
  - specialize (Hfailed cls msg Hw Hs Hin eq_refl).
    unfold logging_error, log, asyncio_sleep, await, suspend.
    repeat (rewrite bind_unfold; simpl).
    unfold emit; simpl. rewrite <- !app_assoc; simpl.
    destruct (cancelled (S (awaited st))); simpl; exact Hfailed.
Qed.

End Delivering.

(** ** The journal of a stretch of the run *)

Lemma since_app st0 st seg :
  journal st = journal st0 ++ seg -> since st0 st = seg.
Proof. intros H. unfold since. rewrite H. apply drop_app_length. Qed.

(** ** The deliveries of one tick *)

Lemma failures_followed_nil : failures_followed [].
Proof. intros [|] ? ? ? ? ? H; discriminate H. Qed.

Lemma failures_followed_app seg chunk :
  failures_followed seg -> failures_followed chunk ->
  failures_followed (seg ++ chunk).
Proof.
  intros Hs Hc l1 l2 u ev cls msg Heq.
  apply app_eq_app in Heq as [l [[-> Hl]|[-> Hl]]].
  - destruct l as [|x l].
    + simpl in Hl. now apply (Hc [] l2 u ev cls msg).
    + injection Hl as <- ->.
      destruct (Hs l1 l u ev cls msg eq_refl) as [l3 ->].
      now exists (l3 ++ chunk).
  - now apply (Hc l l2 u ev cls msg).
Qed.

Lemma failures_followed_sent u ev : failures_followed [Delivery u ev (Ok tt)].
Proof.
  intros [|x [|y l1]] l2 ? ? ? ? H; simplify_eq/=.
Qed.

Lemma failures_followed_cancelled u ev :
  failures_followed [Delivery u ev (Raise CancelledError)].
Proof.
  intros [|x [|y l1]] l2 ? ? ? ? H; simplify_eq/=.
Qed.

Lemma failures_followed_failed u ev cls msg :
  failures_followed
    [Delivery u ev (Raise (Exception cls msg));
     LogError (delivery_error u (Exception cls msg)); Sleep 1].
Proof.
  intros [|x [|y [|z [|t l1]]]] l2 ? ? ? ? H; simplify_eq/=.
  now exists [].
Qed.

Lemma has_insert_add (ne : gmap Z (gset string)) u s id u' id' :
  ne !! u = Some s ->
  has (<[u := {[id]} ∪ s]> ne) u' id' <-> has ne u' id' \/ (u' = u /\ id' = id).
Proof.
  intros Hs. unfold has. split.
  - intros (s' & Hl & Hin). destruct (decide (u = u')) as [<-|Hne].
    + rewrite lookup_insert_eq in Hl. injection Hl as <-.
      apply elem_of_union in Hin as [Hin|Hin].
      * apply elem_of_singleton in Hin. now right.
      * left. now exists s.
    + rewrite lookup_insert_ne in Hl by done. left. now exists s'.
  - intros [(s' & Hl & Hin)|[-> ->]].
    + destruct (decide (u = u')) as [<-|Hne].
      * rewrite lookup_insert_eq. eexists. split; [done|].
        rewrite Hs in Hl. injection Hl as ->. set_solver.
      * rewrite lookup_insert_ne by done. now exists s'.
    + rewrite lookup_insert_eq. eexists. split; [done|]. set_solver.
Qed.

Lemma has_empty u id : ~ has ∅ u id.
Proof. intros (s & Hs & _). rewrite lookup_empty in Hs. discriminate. Qed.

Lemma has_insert_empty (ne : gmap Z (gset string)) u u' id' :
  ne !! u = None ->
  has (<[u := ∅]> ne) u' id' <-> has ne u' id'.
Proof.
  intros Hn. unfold has. split; intros (s' & Hl & Hin).
  - destruct (decide (u = u')) as [<-|Hne].
    + rewrite lookup_insert_eq in Hl. injection Hl as <-. set_solver.
    + rewrite lookup_insert_ne in Hl by done. now exists s'.
  - destruct (decide (u = u')) as [<-|Hne]; [congruence|].
    rewrite lookup_insert_ne by done. now exists s'.
Qed.

(** The loop over the recipients when no other task touches the dict
    ([nobody]). *)
Section Phase.

Variable NOTIFICATION_TIME : Z.
Variable cancelled : nat -> bool.
Variable w : world.
Variable now : DT.datetime.
Variable users : list User.
Variable events : list event.

#[local] Abbreviation notify_now := (notify NOTIFICATION_TIME cancelled nobody w now).
#[local] Abbreviation notify_user_now :=
  (notify_user NOTIFICATION_TIME cancelled nobody w now events).
#[local] Abbreviation due := (within_lead NOTIFICATION_TIME now).
#[local] Abbreviation sent_at := (send_result cancelled w).

#[local] Abbreviation inv :=
  (phase_inv NOTIFICATION_TIME cancelled w now users events).
#[local] Abbreviation notify_users_now :=
  (notify_users NOTIFICATION_TIME cancelled nobody w now users events).

Lemma phase_inv_refl st0 : inv st0 st0.
Proof.
  exists []. rewrite app_nil_r. split; [done|]. split; [|split].
  - intros u id. split; [now left|].
    intros [H|(ev & [] & _)]; exact H.
  - intros u ev r [].
  - apply failures_followed_nil.
Qed.

Lemma delivered_app seg chunk u id :
  delivered (seg ++ chunk) u id <-> delivered seg u id \/ delivered chunk u id.
Proof.
  unfold delivered. split.
  - intros (ev & Hin & Hid). apply in_app_iff in Hin as [Hin|Hin]; eauto.
  - intros [(ev & Hin & Hid)|(ev & Hin & Hid)]; exists ev;
      (split; [apply in_app_iff; auto|exact Hid]).
Qed.

(** The invariant goes through a step that adds [chunk] to the journal. *)
Lemma phase_inv_step st0 st st' chunk :
  inv st0 st ->
  journal st' = journal st ++ chunk ->
  (forall u id, has (notified_events st') u id <->
                has (notified_events st) u id \/ delivered chunk u id) ->
  (forall u ev r, In (Delivery u ev r) chunk ->
     In u (map user_id users) /\ In ev events /\ due ev /\
     ~ has (notified_events st) u (event_id_of ev) /\
     exists k, r = sent_at k u ev) ->
  failures_followed chunk ->
  inv st0 st'.
Proof.
  intros (seg & Hj & Hhas & Hsound & Hff) Hj' Hhas' Hsound' Hff'.
  exists (seg ++ chunk). split; [|split; [|split]].
  - rewrite Hj', Hj. now rewrite app_assoc.
  - intros u id. rewrite Hhas', Hhas, delivered_app. tauto.
  - intros u ev r Hin. apply in_app_iff in Hin as [Hin|Hin].
    + now apply Hsound.
    + destruct (Hsound' u ev r Hin) as (H1 & H2 & H3 & H4 & H5).
      repeat split; try assumption.
      intros H0. apply H4. apply Hhas. now left.
  - now apply failures_followed_app.
Qed.

Lemma notify_keeps_inv st0 st u ev :
  In u (map user_id users) -> In ev events ->
  inv st0 st -> inv st0 (notify_now u ev st).2.
Proof.
  intros Hu Hev Hinv.
  destruct (notify_spec NOTIFICATION_TIME cancelled nobody w now u ev st)
    as [e Htd|td Htd Hl|Hw Hs|s Hw Hs Hin|s s1 Hw Hs Hin Hr Hs1
        |s Hw Hs Hin Hr Hs1|s cls msg Hw Hs Hin Hr|s Hw Hs Hin Hr];
    unfold nobody in *; try exact Hinv; try congruence.
  - rewrite Hs in Hs1. injection Hs1 as <-.
    apply (phase_inv_step st0 st _ [Delivery u ev (Ok tt)] Hinv);
      [reflexivity| | |].
    + intros u' id'. simpl. rewrite (has_insert_add _ _ _ _ _ _ Hs).
      unfold delivered. split.
      * intros [H|[-> ->]]; [now left|right]. exists ev. split; [now left|done].
      * intros [H|(ev' & [Heq|[]] & Hid)]; [now left|right].
        injection Heq as -> ->. now split.
    + intros u' ev' r [Heq|[]]. injection Heq as <- <- <-.
      repeat split; try assumption.
      * intros (s' & Hs' & Hin'). congruence.
      * exists (awaited st). now rewrite Hr.
    + apply failures_followed_sent.
  - eapply (phase_inv_step st0 st _ _ Hinv); [reflexivity| | |].
    + intros u' id'. simpl. unfold delivered. split; [now left|].
      intros [H|(ev' & [Heq|[Heq|[Heq|[]]]] & Hid)]; [exact H|discriminate..].
    + intros u' ev' r [Heq|[Heq|[Heq|[]]]]; [|discriminate..].
      injection Heq as <- <- <-.
      repeat split; try assumption.
      * intros (s' & Hs' & Hin'). congruence.
      * exists (awaited st). now rewrite Hr.
    + apply failures_followed_failed.
  - eapply (phase_inv_step st0 st _ _ Hinv); [reflexivity| | |].
    + intros u' id'. simpl. unfold delivered. split; [now left|].
      intros [H|(ev' & [Heq|[]] & Hid)]; [exact H|discriminate].
    + intros u' ev' r [Heq|[]]. injection Heq as <- <- <-.
      repeat split; try assumption.
      * intros (s' & Hs' & Hin'). congruence.
      * exists (awaited st). now rewrite Hr.
    + apply failures_followed_cancelled.
Qed.

Lemma ensure_set_spec st0 st u :
  inv st0 st ->
  (ensure_set u st).1 = Ok tt /\
  inv st0 (ensure_set u st).2 /\
  is_Some (notified_events (ensure_set u st).2 !! u).
Proof.
  intros Hinv. unfold ensure_set.
  destruct (notified_events st !! u) as [s|] eqn:Hs; simpl.
  - split; [done|]. split; [exact Hinv|]. rewrite Hs. now exists s.
  - split; [done|]. split.
    + apply (phase_inv_step st0 st _ [] Hinv).
      * simpl. now rewrite app_nil_r.
      * intros u' id'. simpl. rewrite (has_insert_empty _ _ _ _ Hs).
        split; [now left|]. intros [H|(ev' & [] & _)]. exact H.
      * intros ? ? ? [].
      * apply failures_followed_nil.
    + rewrite lookup_insert_eq. now eexists.
Qed.

Lemma notify_user_keeps_inv st0 st user :
  In user users ->
  inv st0 st -> inv st0 (notify_user_now user st).2.
Proof.
  intros Hu Hinv. unfold notify_user. rewrite bind_unfold.
  assert (In (user_id user) (map user_id users)) as Hu' by now apply in_map.
  destruct (ensure_set_spec st0 st (user_id user) Hinv) as (E1 & E2 & _).
  destruct (ensure_set (user_id user) st) as [r st1]; simpl in *; subst r.
  apply for_each_inv; [|exact E2].
  intros ev st2 Hev. now apply notify_keeps_inv.
Qed.

(** The invariant holds when the loop over the recipients stops, whether
    it ran to its end or was left by an exception. *)
Lemma notify_users_inv st0 : inv st0 (notify_users_now st0).2.
Proof.
  unfold notify_users. apply for_each_inv.
  - intros user st Hu. now apply notify_user_keeps_inv.
  - apply phase_inv_refl.
Qed.

Lemma covered_later st0 st st' u id :
  covered st0 st u id -> inv st st' -> covered st0 st' u id.
Proof.
  intros [H|(seg & Hj & ev & r & Hin & Hid)] (chunk & Hj' & _); [now left|].
  right. exists (seg ++ chunk). split.
  - rewrite Hj', Hj. now rewrite app_assoc.
  - exists ev, r. split; [apply in_app_iff; now left|exact Hid].
Qed.

Section Complete.

Hypothesis not_cancelled : forall k, cancelled k = false.
Hypothesis now_aware : DT.aware now.
Hypothesis starts_aware : forall ev, In ev events -> DT.aware (start ev).

Lemma time_diff_aware ev :
  In ev events -> exists td, time_diff (start ev) now = Ok td.
Proof.
  intros Hev. destruct (starts_aware ev Hev) as [oa Ha].
  destruct now_aware as [ob Hb].
  unfold time_diff, DT.sub. rewrite Ha, Hb. simpl. eauto.
Qed.

Lemma notify_complete st0 st u ev :
  In u (map user_id users) -> In ev events ->
  inv st0 st -> is_Some (notified_events st !! u) ->
  (notify_now u ev st).1 = Ok tt /\
  is_Some (notified_events (notify_now u ev st).2 !! u) /\
  (due ev -> covered st0 (notify_now u ev st).2 u (event_id_of ev)).
Proof.
  intros Hu Hev Hinv Hkey.
  destruct (time_diff_aware ev Hev) as [td0 Htd0].
  pose proof Hinv as (seg & Hj & Hhas & _).
  destruct (notify_spec NOTIFICATION_TIME cancelled nobody w now u ev st)
    as [e Htd|td Htd Hl|Hw Hs|s Hw Hs Hin|s s1 Hw Hs Hin Hr Hs1
        |s Hw Hs Hin Hr Hs1|s cls msg Hw Hs Hin Hr|s Hw Hs Hin Hr];
    unfold nobody in *.
  - congruence.
  - split; [done|]. split; [exact Hkey|]. intros Hw.
    rewrite (within_in_lead _ _ _ _ Htd Hw) in Hl. discriminate.
  - rewrite Hs in Hkey. now destruct Hkey.
  - split; [done|]. split; [exact Hkey|]. intros _.
    assert (has (notified_events st) u (event_id_of ev)) as H by now exists s.
    apply Hhas in H as [H|(ev' & Hin' & Hid)]; [now left|].
    right. exists seg. split; [exact Hj|]. now exists ev', (Ok tt).
  - split; [done|]. simpl. split; [rewrite lookup_insert_eq; now eexists|].
    intros _. right. exists (seg ++ [Delivery u ev (Ok tt)]). split.
    + rewrite Hj. now rewrite app_assoc.
    + exists ev, (Ok tt). split; [apply in_app_iff; right; now left|done].
  - congruence.
  - rewrite not_cancelled. split; [done|]. simpl. split; [exact Hkey|].
    intros _. right. eexists. split.
    + rewrite Hj. rewrite <- app_assoc. reflexivity.
    + exists ev. eexists. split; [apply in_app_iff; right; now left|done].
  - unfold send_result in Hr. rewrite not_cancelled in Hr.
    destruct (w_send_message w (awaited st) u (notification_text ev));
      discriminate.
Qed.

Lemma notify_user_complete st0 st user :
  In user users -> inv st0 st ->
  (notify_user_now user st).1 = Ok tt /\
  inv st0 (notify_user_now user st).2 /\
  (forall ev, In ev events -> due ev ->
     covered st0 (notify_user_now user st).2 (user_id user) (event_id_of ev)).
Proof.
  intros Hu Hinv.
  assert (In (user_id user) (map user_id users)) as Hu' by now apply in_map.
  unfold notify_user. rewrite bind_unfold.
  destruct (ensure_set_spec st0 st (user_id user) Hinv) as (E1 & E2 & E3).
  destruct (ensure_set (user_id user) st) as [r st1]; simpl in *; subst r.
  destruct (for_each_post
    (fun st2 => inv st0 st2 /\
                is_Some (notified_events st2 !! user_id user))
    (fun ev st2 => due ev ->
                   covered st0 st2 (user_id user) (event_id_of ev))
    events (notify_now (user_id user))) with (st := st1) as (R1 & [R2 _] & R3).
  - intros ev st2 Hev [HI1 HI2].
    destruct (notify_complete st0 st2 (user_id user) ev Hu' Hev HI1 HI2)
      as (C1 & C2 & C3).
    split; [exact C1|]. split; [|exact C3].
    split; [now apply notify_keeps_inv|exact C2].
  - intros ev ev' st2 Hev Hev' [HI1 HI2] HP Hw.
    apply covered_later with st2; [now apply HP|].
    apply notify_keeps_inv; [exact Hu'|exact Hev'|apply phase_inv_refl].
  - now split.
  - split; [exact R1|]. split; [exact R2|]. exact R3.
Qed.

(** With no cancellation, the loop over the recipients runs to its end,
    and every pair of a recipient and an occurrence within the lead time
    is either recorded already or sent. *)
Lemma notify_users_complete st0 :
  (notify_users_now st0).1 = Ok tt /\
  forall user ev, In user users -> In ev events -> due ev ->
    covered st0 (notify_users_now st0).2 (user_id user) (event_id_of ev).
Proof.
  destruct (for_each_post
    (fun st => inv st0 st)
    (fun user st => forall ev, In ev events -> due ev ->
                      covered st0 st (user_id user) (event_id_of ev))
    users notify_user_now) with (st := st0) as (R1 & _ & R3).
  - intros user st Hu HI. now apply notify_user_complete.
  - intros user user' st Hu Hu' HI HP ev Hev Hw.
    apply covered_later with st; [now apply HP|].
    apply notify_user_keeps_inv; [exact Hu'|apply phase_inv_refl].
  - apply phase_inv_refl.
  - split; [exact R1|]. intros user ev Hu Hev Hw. now apply R3.
Qed.

End Complete.

End Phase.

(** ** Minutes until the start *)

Lemma time_diff_instants a b :
  DT.aware a -> DT.aware b ->
  time_diff a b = Ok (((DT.instant a - DT.instant b) # 1000000) / 60)%Q.
Proof.
  intros [oa Ha] [ob Hb]. unfold time_diff, DT.sub, DT.instant.
  rewrite Ha, Hb. simpl. do 3 f_equal. unfold DT.US_PER_SECOND. lia.
Qed.

Lemma minutes_le (d L : Z) :
  ((d # 1000000) / 60 <= inject_Z L)%Q <-> d <= minutes L.
Proof.
  unfold Qle, Qdiv, Qmult, Qinv, inject_Z, minutes. simpl.
  rewrite Pos2Z.inj_mul. lia.
Qed.

Lemma minutes_ge (d : Z) : (0 <= (d # 1000000) / 60)%Q <-> 0 <= d.
Proof.
  unfold Qle, Qdiv, Qmult, Qinv. simpl. lia.
Qed.

(** For aware values, the test of the scheduler is a test on the distance
    of the two instants. *)
Lemma within_lead_instants L now ev :
  DT.aware now -> DT.aware (start ev) ->
  within_lead L now ev <->
  0 <= DT.instant (start ev) - DT.instant now <= minutes L.
Proof.
  intros Hn He. unfold within_lead.
  rewrite (time_diff_instants _ _ He Hn). split.
  - intros (td & [= <-] & H1 & H2).
    pose proof (proj1 (minutes_ge _) H1). pose proof (proj1 (minutes_le _ _) H2).
    lia.
  - intros [H1 H2]. eexists. split; [reflexivity|].
    split; [apply (proj2 (minutes_ge _)) | apply (proj2 (minutes_le _ _))]; lia.
Qed.

(** ** The loop over the recipients, summed up

    As before, for a loop during which no other task touches the dict. *)

Section PhaseSummary.

Variable NOTIFICATION_TIME : Z.
Variable cancelled : nat -> bool.
Variable w : world.
Variable now : DT.datetime.
Variable users : list User.
Variable events : list event.

#[local] Abbreviation loop :=
  (notify_users NOTIFICATION_TIME cancelled nobody w now users events).
#[local] Abbreviation due := (within_lead NOTIFICATION_TIME now).

(** Every send of the loop is for a recipient of the list and an occurrence
    that is due, and for a pair that was not recorded. *)
Lemma loop_attempts_sound st0 u id :
  attempted (since st0 (loop st0).2) u id ->
  In u (map user_id users) /\
  (exists ev, In ev events /\ event_id_of ev = id /\ due ev) /\
  ~ has (notified_events st0) u id.
Proof.
  destruct (notify_users_inv NOTIFICATION_TIME cancelled w now users events st0)
    as (seg & Hj & _ & Hsound & _).
  rewrite (since_app _ _ _ Hj). intros (ev & r & Hin & <-).
  destruct (Hsound u ev r Hin) as (H1 & H2 & H3 & H4 & _).
  split; [exact H1|]. split; [|exact H4]. now exists ev.
Qed.

(** When the loop stops, what is recorded is what was recorded before and
    what was sent with success. *)
Lemma loop_records st0 u id :
  has (notified_events (loop st0).2) u id <->
  has (notified_events st0) u id \/ delivered (since st0 (loop st0).2) u id.
Proof.
  destruct (notify_users_inv NOTIFICATION_TIME cancelled w now users events st0)
    as (seg & Hj & Hhas & _).
  rewrite (since_app _ _ _ Hj). apply Hhas.
Qed.

Section NotCancelled.

Hypothesis not_cancelled : forall k, cancelled k = false.
Hypothesis now_aware : DT.aware now.
Hypothesis starts_aware : forall ev, In ev events -> DT.aware (start ev).

(** With no cancellation, the loop sends every pair that is due and not
    recorded. *)
Lemma loop_attempts_complete st0 u id :
  In u (map user_id users) ->
  (exists ev, In ev events /\ event_id_of ev = id /\ due ev) ->
  ~ has (notified_events st0) u id ->
  attempted (since st0 (loop st0).2) u id.
Proof.
  intros Hu (ev & Hev & <- & Hw) Hnot.
  apply in_map_iff in Hu as (user & <- & Hu).
  destruct (notify_users_complete NOTIFICATION_TIME cancelled w now
              users events not_cancelled now_aware starts_aware st0)
    as [_ Hcov].
  destruct (Hcov user ev Hu Hev Hw) as [H|(seg & Hj & Hatt)]; [contradiction|].
  now rewrite (since_app _ _ _ Hj).
Qed.

(** A send to a recipient whose sends all go through does go through. *)
Lemma loop_delivers st0 (b : User) id :
  (forall k text, w_send_message w k (user_id b) text = Returns tt) ->
  attempted (since st0 (loop st0).2) (user_id b) id ->
  delivered (since st0 (loop st0).2) (user_id b) id.
Proof.
  intros Hsend.
  destruct (notify_users_inv NOTIFICATION_TIME cancelled w now users events st0)
    as (seg & Hj & _ & Hsound & _).
  rewrite (since_app _ _ _ Hj). intros (ev & r & Hin & Hid).
  destruct (Hsound _ _ _ Hin) as (_ & _ & _ & _ & k & Hr).
  unfold send_result in Hr. rewrite not_cancelled, Hsend in Hr. simpl in Hr.
  subst r. now exists ev.
Qed.

End NotCancelled.

End PhaseSummary.

(** ** What every step does to the journal *)

Lemma orderly_since {A} (m : M A) st :
  orderly m ->
  journal (m st).2 = journal st ++ since st (m st).2 /\
  failures_followed (since st (m st).2).
Proof.
  intros H. destruct (H st) as (seg & Hj & Hff).
  now rewrite (since_app _ _ _ Hj).
Qed.

Lemma orderly_quiet {A} (m : M A) :
  (forall st, journal (m st).2 = journal st) -> orderly m.
Proof.
  intros H st. exists []. rewrite app_nil_r. split; [apply H|].
  apply failures_followed_nil.
Qed.

Lemma orderly_ret {A} (a : A) : orderly (mret a).
Proof. now apply orderly_quiet. Qed.

Lemma orderly_lift {A} (r : result A) : orderly (lift r).
Proof. now apply orderly_quiet. Qed.

Lemma orderly_bind {A B} (m : M A) (k : A -> M B) :
  orderly m -> (forall a, orderly (k a)) -> orderly (m ≫= k).
Proof.
  intros Hm Hk st. rewrite bind_unfold.
  destruct (Hm st) as (seg & Hj & Hff).
  destruct (m st) as [[a|e] st1]; simpl in *; [|now exists seg].
  destruct (Hk a st1) as (seg' & Hj' & Hff').
  exists (seg ++ seg'). split.
  - rewrite Hj', Hj. now rewrite app_assoc.
  - now apply failures_followed_app.
Qed.

Lemma orderly_try_except {A} (body : M A) handler :
  orderly body -> (forall e, orderly (handler e)) ->
  orderly (try_except body handler).
Proof.
  intros Hb Hh st. unfold try_except.
  destruct (Hb st) as (seg & Hj & Hff).
  destruct (body st) as [[a|[cls msg|]] st1]; simpl in *;
    [now exists seg| |now exists seg].
  destruct (Hh (Exception cls msg) st1) as (seg' & Hj' & Hff').
  exists (seg ++ seg'). split.
  - rewrite Hj', Hj. now rewrite app_assoc.
  - now apply failures_followed_app.
Qed.

Lemma orderly_try_finally {A} (body : M A) final :
  orderly body -> orderly final -> orderly (try_finally body final).
Proof.
  intros Hb Hf st. unfold try_finally.
  destruct (Hb st) as (seg & Hj & Hff).
  destruct (body st) as [r st1]; simpl in *.
  destruct (Hf st1) as (seg' & Hj' & Hff').
  exists (seg ++ seg'). split.
  - destruct (final st1) as [[[]|e] st2]; simpl in *;
      rewrite Hj', Hj; now rewrite app_assoc.
  - now apply failures_followed_app.
Qed.

Lemma orderly_for_each {A} (l : list A) body :
  (forall a, orderly (body a)) -> orderly (for_each l body).
Proof.
  intros Hb. induction l as [|a l IH]; [apply orderly_ret|].
  apply (orderly_bind (body a) (fun _ => for_each l body)); auto.
Qed.

Lemma failures_followed_one e :
  (forall u ev cls msg, e <> Delivery u ev (Raise (Exception cls msg))) ->
  failures_followed [e].
Proof.
  intros He [|x [|y l1]] l2 u ev cls msg H; simplify_eq/=.
  now destruct (He u ev cls msg).
Qed.

Lemma orderly_log e :
  (forall u ev cls msg, e <> Delivery u ev (Raise (Exception cls msg))) ->
  orderly (log e).
Proof.
  intros He st. exists [e]. split; [reflexivity|].
  now apply failures_followed_one.
Qed.

Lemma orderly_logging_error msg : orderly (logging_error msg).
Proof. now apply orderly_log. Qed.

Lemma orderly_logging_warning msg : orderly (logging_warning msg).
Proof. now apply orderly_log. Qed.

Lemma orderly_clear : orderly clear.
Proof. now apply orderly_quiet. Qed.

Lemma orderly_getitem u : orderly (getitem u).
Proof.
  apply orderly_quiet. intros st. unfold getitem.
  now destruct (notified_events st !! u).
Qed.

Lemma orderly_setitem u s : orderly (setitem u s).
Proof. now apply orderly_quiet. Qed.

Lemma orderly_prune now : orderly (prune now).
Proof.
  unfold prune. apply orderly_bind; [now apply orderly_quiet|].
  intros ks. apply orderly_for_each. intros u.
  apply orderly_bind; [apply orderly_getitem|]. intros s.
  apply orderly_bind; [apply orderly_lift|]. intros s'.
  apply orderly_setitem.
Qed.

Section Orderly.

Variable CHECK_INTERVAL : Z.
Variable NOTIFICATION_TIME : Z.
Variable cancelled : nat -> bool.
Variable others : nat -> gmap Z (gset string) -> gmap Z (gset string).

Lemma orderly_await {A} (op : nat -> outcome A) : orderly (await cancelled others op).
Proof.
  apply orderly_quiet. intros st. unfold await.
  now destruct (cancelled (awaited st)).
Qed.

Lemma orderly_sleep secs : orderly (asyncio_sleep cancelled others secs).
Proof.
  unfold asyncio_sleep. apply orderly_bind; [now apply orderly_log|].
  intros _. apply orderly_await.
Qed.

Lemma orderly_fetch_calendar w url : orderly (fetch_calendar cancelled others w url).
Proof.
  unfold fetch_calendar. apply orderly_try_except.
  - apply orderly_bind; [apply orderly_await|]. intros response.
    destruct (status response =? 200).
    + apply orderly_bind; [apply orderly_await|]. intros ical_data.
      apply orderly_bind; [apply orderly_lift|]. intros cal.
      apply orderly_ret.
    + apply orderly_bind; [apply orderly_logging_error|]. intros _.
      apply orderly_ret.
  - intros e. apply orderly_bind; [apply orderly_logging_error|]. intros _.
    apply orderly_ret.
Qed.

Lemma orderly_notify w now u ev :
  orderly (notify NOTIFICATION_TIME cancelled others w now u ev).
Proof.
  intros st.
  destruct (notify_spec NOTIFICATION_TIME cancelled others w now u ev st)
    as [e Htd|td Htd Hl|Hw Hs|s Hw Hs Hin|s s1 Hw Hs Hin Hr Hs1
        |s Hw Hs Hin Hr Hs1|s cls msg Hw Hs Hin Hr|s Hw Hs Hin Hr];
    try (exists []; rewrite app_nil_r; split;
         [reflexivity|apply failures_followed_nil]);
    (eexists; split; [reflexivity|]).
  - apply failures_followed_sent.
  - intros [|x [|y [|z [|t l1]]]] l2 ? ? ? ? H; simplify_eq/=.
  - apply failures_followed_failed.
  - apply failures_followed_cancelled.
Qed.

Lemma orderly_notify_users w now users events :
  orderly (notify_users NOTIFICATION_TIME cancelled others w now users events).
Proof.
  unfold notify_users. apply orderly_for_each. intros user.
  unfold notify_user. apply orderly_bind.
  - apply orderly_quiet. intros st. unfold ensure_set.
    now destruct (notified_events st !! user_id user).
  - intros _. apply orderly_for_each. intros ev. apply orderly_notify.
Qed.

Lemma orderly_tick_body w now :
  orderly (tick_body CHECK_INTERVAL NOTIFICATION_TIME cancelled others w now).
Proof.
  unfold tick_body. apply orderly_bind; [apply orderly_lift|].
  intros [row|].
  - apply orderly_bind; [apply orderly_fetch_calendar|]. intros [cal|].
    + apply orderly_bind; [apply orderly_lift|]. intros subscribed_users.
      apply orderly_bind; [apply orderly_lift|]. intros end_time.
      apply orderly_bind; [apply orderly_lift|]. intros events.
      apply orderly_bind; [apply orderly_notify_users|]. intros _.
      apply orderly_bind; [apply orderly_prune|]. intros _.
      apply orderly_ret.
    + apply orderly_bind; [apply orderly_logging_error|]. intros _.
      apply orderly_bind; [apply orderly_clear|]. intros _.
      apply orderly_bind; [apply orderly_sleep|]. intros _.
      apply orderly_ret.
  - apply orderly_bind; [apply orderly_logging_warning|]. intros _.
    apply orderly_bind; [apply orderly_clear|]. intros _.
    apply orderly_bind; [apply orderly_sleep|]. intros _.
    apply orderly_ret.
Qed.

Lemma orderly_guarded w :
  orderly (guarded CHECK_INTERVAL NOTIFICATION_TIME cancelled others w).
Proof.
  unfold guarded. apply orderly_try_finally.
  - apply orderly_try_except; [apply orderly_tick_body|].
    intros e. apply orderly_bind; [apply orderly_logging_error|].
    intros _. apply orderly_ret.
  - unfold db_close. apply orderly_bind; [now apply orderly_log|].
    intros _. apply orderly_lift.
Qed.

Lemma orderly_tick w : orderly (tick CHECK_INTERVAL NOTIFICATION_TIME cancelled others w).
Proof.
  unfold tick. apply orderly_bind; [apply orderly_guarded|].
  intros [|]; [apply orderly_ret|apply orderly_sleep].
Qed.

Lemma orderly_run ws :
  orderly (check_upcoming_events CHECK_INTERVAL NOTIFICATION_TIME cancelled others ws).
Proof.
  induction ws as [|w ws IH]; [apply orderly_ret|].
  simpl. apply orderly_bind; [apply orderly_tick|]. intros _. exact IH.
Qed.

End Orderly.

(** ** Where cancellation comes from *)

Lemma gentle_Raise {A B} (e : exn) : gentle (@Raise A e) -> gentle (@Raise B e).
Proof. intros H E. apply H. now injection E as ->. Qed.

Lemma gentle_of_outcome {A} (o : outcome A) : gentle (of_outcome o).
Proof. destruct o; discriminate. Qed.

Lemma gentle_bind {A B} (r : result A) (k : A -> result B) :
  gentle r -> (forall a, gentle (k a)) -> gentle (r ≫= k).
Proof.
  intros Hr Hk. destruct r as [a|e]; [apply Hk|].
  exact (gentle_Raise e Hr).
Qed.

Lemma gentle_add d delta : gentle (DT.add d delta).
Proof.
  unfold DT.add.
  destruct ((0 <? _) && _); [|discriminate].
  destruct (DT.ord2ymd _) as [[y m] dd]. discriminate.
Qed.

Lemma gentle_sub a b : gentle (DT.sub a b).
Proof.
  unfold DT.sub. destruct (DT.utcoffset a), (DT.utcoffset b); discriminate.
Qed.

Lemma gentle_map_result {A B} (f : A -> result B) l :
  (forall a, gentle (f a)) -> gentle (map_result f l).
Proof.
  intros Hf. induction l as [|a l IH]; [discriminate|].
  simpl. apply gentle_bind; [apply Hf|]. intros b.
  apply gentle_bind; [exact IH|]. discriminate.
Qed.

Lemma gentle_format_event w ev : gentle (format_event w ev).
Proof.
  unfold format_event. destruct (DTSTART ev) as [dt|]; [|discriminate].
  apply gentle_bind; [|discriminate].
  destruct (DT.utcoffset _); [discriminate|apply gentle_add].
Qed.

Lemma gentle_get_events w calendar start_date end_date :
  gentle (get_events w calendar start_date end_date).
Proof.
  unfold get_events. destruct calendar as [cal|]; [|discriminate].
  apply gentle_bind; [apply gentle_of_outcome|]. intros events.
  apply gentle_bind; [|discriminate].
  apply gentle_map_result, gentle_format_event.
Qed.

Lemma gentle_stale now id : gentle (stale now id).
Proof.
  unfold stale. destruct (PyStr.split _ _ !! _); [|discriminate].
  apply gentle_bind; [|discriminate].
  unfold cutoff. apply gentle_bind; [apply gentle_add|discriminate].
Qed.

Lemma gentle_comprehension now s : gentle (comprehension now s).
Proof.
  unfold comprehension. apply gentle_bind; [|discriminate].
  induction (elements s) as [|id ids IH]; [discriminate|].
  simpl. apply gentle_bind; [apply gentle_stale|]. intros b.
  apply gentle_bind; [exact IH|]. discriminate.
Qed.

Lemma gentle_time_diff a b : gentle (time_diff a b).
Proof.
  unfold time_diff. apply gentle_bind; [apply gentle_sub|discriminate].
Qed.

Lemma polite_ret {A} (a : A) : polite (mret a).
Proof. intros st. discriminate. Qed.

Lemma polite_lift {A} (r : result A) : gentle r -> polite (lift r).
Proof. intros Hr st. exact Hr. Qed.

Lemma polite_bind {A B} (m : M A) (k : A -> M B) :
  polite m -> (forall a, polite (k a)) -> polite (m ≫= k).
Proof.
  intros Hm Hk st. rewrite bind_unfold. specialize (Hm st).
  destruct (m st) as [[a|e] st1]; simpl in *;
    [apply Hk|exact (gentle_Raise e Hm)].
Qed.

Lemma polite_try_except {A} (body : M A) handler :
  polite body -> (forall e, polite (handler e)) ->
  polite (try_except body handler).
Proof.
  intros Hb Hh st. unfold try_except. specialize (Hb st).
  destruct (body st) as [[a|[cls msg|]] st1]; simpl in *;
    [discriminate|apply Hh|exact Hb].
Qed.

Lemma polite_try_finally {A} (body : M A) final :
  polite body -> polite final -> polite (try_finally body final).
Proof.
  intros Hb Hf st. unfold try_finally. specialize (Hb st).
  destruct (body st) as [r st1]; simpl in *. specialize (Hf st1).
  destruct (final st1) as [[[]|e] st2]; simpl in *;
    [exact Hb|exact (gentle_Raise e Hf)].
Qed.

Lemma polite_for_each {A} (l : list A) body :
  (forall a, polite (body a)) -> polite (for_each l body).
Proof.
  intros Hb. induction l as [|a l IH]; [apply polite_ret|].
  apply (polite_bind (body a) (fun _ => for_each l body)); auto.
Qed.

Lemma polite_log e : polite (log e).
Proof. intros st. discriminate. Qed.

Lemma polite_getitem u : polite (getitem u).
Proof.
  intros st. unfold getitem.
  destruct (notified_events st !! u); discriminate.
Qed.

Lemma polite_setitem u s : polite (setitem u s).
Proof. intros st. discriminate. Qed.

Lemma polite_clear : polite clear.
Proof. intros st. discriminate. Qed.

Lemma polite_mark u id : polite (mark u id).
Proof.
  unfold mark. apply polite_bind; [apply polite_getitem|].
  intros s. apply polite_setitem.
Qed.

Lemma polite_prune now : polite (prune now).
Proof.
  unfold prune. apply polite_bind; [intros st; discriminate|].
  intros ks. apply polite_for_each. intros u.
  apply polite_bind; [apply polite_getitem|]. intros s.
  apply polite_bind; [apply polite_lift, gentle_comprehension|]. intros s'.
  apply polite_setitem.
Qed.

(** ** What the pruning does to the dict *)

Lemma hasb_spec ne u id : hasb ne u id = true <-> has ne u id.
Proof.
  unfold hasb, has. destruct (ne !! u) as [s|]; split.
  - intros H. apply bool_decide_eq_true in H. now exists s.
  - intros (s' & [= <-] & H). now apply bool_decide_eq_true.
  - discriminate.
  - intros (s' & [=] & _).
Qed.

Lemma fresh_spec now ids l :
  fresh now ids = Ok l ->
  forall id, In id l <-> In id ids /\ stale now id = Ok false.
Proof.
  revert l. induction ids as [|id0 ids IH]; intros l H id.
  - injection H as <-. simpl. tauto.
  - simpl in H. destruct (stale now id0) as [b|e] eqn:Hb; [|discriminate].
    simpl in H. destruct (fresh now ids) as [rest|e]; [|discriminate].
    simpl in H. injection H as <-. specialize (IH rest eq_refl id).
    destruct b; simpl; rewrite IH.
    + split; [tauto|]. intros [[<-|H] Hs]; [congruence|tauto].
    + split; [|tauto]. intros [<-|[H Hs]]; tauto.
Qed.

Lemma fresh_decides now ids l :
  fresh now ids = Ok l -> forall id, In id ids -> exists b, stale now id = Ok b.
Proof.
  revert l. induction ids as [|id0 ids IH]; intros l H id []; simpl in H;
    destruct (stale now id0) as [b|e] eqn:Hb; try discriminate; subst.
  - eauto.
  - simpl in H. destruct (fresh now ids) as [rest|e]; [|discriminate]. eauto.
Qed.

(** What the set comprehension keeps when it does not raise. *)
Lemma comprehension_spec now s s' :
  comprehension now s = Ok s' ->
  (forall id, id ∈ s' <-> id ∈ s /\ stale now id = Ok false) /\
  (forall id, id ∈ s -> stale now id <> Ok true -> id ∈ s').
Proof.
  unfold comprehension. destruct (fresh now (elements s)) as [l|e] eqn:Hl;
    [|discriminate].
  simpl. intros [= <-].
  assert (forall id, id ∈ (list_to_set l : gset string) <->
                     id ∈ s /\ stale now id = Ok false) as H.
  { intros id. rewrite elem_of_list_to_set, list_elem_of_In.
    rewrite (fresh_spec _ _ _ Hl id), <- list_elem_of_In, elem_of_elements.
    tauto. }
  split; [exact H|]. intros id Hin Hns. apply H. split; [exact Hin|].
  destruct (fresh_decides _ _ _ Hl id) as [[|] Hb]; [|congruence|exact Hb].
  now apply list_elem_of_In, elem_of_elements.
Qed.

Lemma thinned_refl now ne : thinned now ne ne.
Proof. intros u. destruct (ne !! u); [|exact I]. split; auto. Qed.

Lemma prune_step_thins now ne0 u st :
  thinned now ne0 (notified_events st) ->
  let st' := ((s ← getitem u; s' ← lift (comprehension now s); setitem u s') st).2 in
  thinned now ne0 (notified_events st') /\
  journal st' = journal st /\ awaited st' = awaited st.
Proof.
  intros Hth. unfold getitem. rewrite bind_unfold.
  destruct (notified_events st !! u) as [s|] eqn:Hs; simpl; [|now split].
  rewrite bind_unfold. unfold lift.
  destruct (comprehension now s) as [s'|e] eqn:Hc; simpl; [|now split].
  split; [|now split].
  destruct (comprehension_spec _ _ _ Hc) as [Hiff Hkeep].
  intros u'. specialize (Hth u').
  destruct (decide (u = u')) as [<-|Hne].
  - rewrite lookup_insert_eq. rewrite Hs in Hth.
    destruct (ne0 !! u) as [s0|]; [|exact Hth].
    destruct Hth as [Hsub Hk]. split.
    + intros id Hid. apply Hsub. now apply Hiff in Hid as [Hid _].
    + intros id Hid Hns. apply Hkeep; [now apply Hk|exact Hns].
  - now rewrite lookup_insert_ne.
Qed.

(** What [prune] does to the dict, however it ends. *)
Lemma prune_thins now st :
  thinned now (notified_events st) (notified_events (prune now st).2) /\
  journal (prune now st).2 = journal st /\
  awaited (prune now st).2 = awaited st.
Proof.
  unfold prune, keys. rewrite bind_unfold. simpl.
  apply (for_each_inv
           (fun st' => thinned now (notified_events st) (notified_events st') /\
                       journal st' = journal st /\ awaited st' = awaited st)).
  - intros u st1 _ (H1 & H2 & H3).
    destruct (prune_step_thins now (notified_events st) u st1 H1)
      as (R1 & R2 & R3).
    split; [exact R1|]. split; congruence.
  - split; [apply thinned_refl|now split].
Qed.

Lemma thinned_has now ne0 ne :
  thinned now ne0 ne ->
  dom ne = dom ne0 /\
  (forall u id, has ne u id -> has ne0 u id) /\
  (forall u id, stale now id <> Ok true -> has ne0 u id -> has ne u id).
Proof.
  intros Hth. split; [|split].
  - apply set_eq. intros u. rewrite !elem_of_dom. specialize (Hth u).
    destruct (ne0 !! u), (ne !! u); try contradiction;
      split; intros [? ?]; try discriminate; eauto.
  - intros u id (s & Hs & Hin). specialize (Hth u). rewrite Hs in Hth.
    destruct (ne0 !! u) as [s0|] eqn:Hs0; [|contradiction].
    exists s0. split; [done|]. now apply Hth.
  - intros u id Hns (s0 & Hs0 & Hin). specialize (Hth u). rewrite Hs0 in Hth.
    destruct (ne !! u) as [s|] eqn:Hs; [|contradiction].
    exists s. split; [done|]. now apply Hth.
Qed.

(** ** The occurrences of a window *)

Lemma format_event_carries w r ev : format_event w r = Ok ev -> carries r ev.
Proof.
  unfold format_event. destruct (DTSTART r) as [dt|]; [|discriminate].
  destruct (match DT.utcoffset _ with None => _ | Some _ => _ end) as [s|e];
    [|discriminate].
  simpl. intros [= <-]. unfold carries. simpl.
  now destruct (SUMMARY r), (DESCRIPTION r), (LOCATION r).
Qed.

Lemma add_keeps_offset d delta d' :
  DT.add d delta = Ok d' -> DT.utcoffset d' = DT.utcoffset d.
Proof.
  unfold DT.add. destruct ((0 <? _) && _); [|discriminate].
  destruct (DT.ord2ymd _) as [[y m] dd]. now intros [= <-].
Qed.

Lemma format_event_aware w r ev : format_event w r = Ok ev -> DT.aware (start ev).
Proof.
  unfold format_event. destruct (DTSTART r) as [dt|]; [|discriminate].
  assert (forall d, match DT.astimezone (w_tzlocal w)
                          (DT.replace_tzinfo d (Some 0)) with
                    | Ok s => DT.aware s
                    | Raise _ => True
                    end) as Hlocal.
  { intros d. unfold DT.astimezone.
    destruct (DT.add _ _) as [s|e] eqn:Hadd; [|exact I].
    unfold DT.aware. rewrite (add_keeps_offset _ _ _ Hadd). simpl.
    now eexists. }
  destruct dt as [y m d|d]; cbv zeta.
  - specialize (Hlocal (DT.mk y m d 0 0 0 0 None)). simpl.
    destruct (DT.astimezone _ _) as [s|e]; [|discriminate].
    simpl. now intros [= <-].
  - specialize (Hlocal d).
    destruct (DT.utcoffset d) as [off|] eqn:Hoff.
    + simpl. intros [= <-]. simpl. now exists off.
    + destruct (DT.astimezone _ _) as [s|e]; [|discriminate].
      simpl. now intros [= <-].
Qed.

Lemma map_result_spec {A B} (f : A -> result B) l l' :
  map_result f l = Ok l' ->
  (forall b, In b l' -> exists a, In a l /\ f a = Ok b) /\
  (forall a, In a l -> exists b, In b l' /\ f a = Ok b).
Proof.
  revert l'. induction l as [|a l IH]; intros l' H.
  - injection H as <-. split; intros ? [].
  - simpl in H. destruct (f a) as [b|e] eqn:Hb; [|discriminate].
    simpl in H. destruct (map_result f l) as [bs|e]; [|discriminate].
    simpl in H. injection H as <-. destruct (IH bs eq_refl) as [IH1 IH2].
    split.
    + intros b' [<-|Hin]; [exists a; split; [now left|exact Hb]|].
      destruct (IH1 b' Hin) as (a' & Ha' & Hf). exists a'. split; [now right|exact Hf].
    + intros a' [<-|Hin]; [exists b; split; [now left|exact Hb]|].
      destruct (IH2 a' Hin) as (b' & Hb' & Hf). exists b'. split; [now right|exact Hf].
Qed.

Lemma in_insert_by_start x y l :
  In y (insert_by_start x l) <-> y = x \/ In y l.
Proof.
  induction l as [|z l IH]; simpl.
  - split; intros [H|H]; auto.
  - destruct (_ <=? _); simpl; [|rewrite IH]; intuition congruence.
Qed.

Lemma in_sorted_by_start y l : In y (sorted_by_start l) <-> In y l.
Proof.
  induction l as [|x l IH]; [reflexivity|].
  simpl. rewrite in_insert_by_start, IH. intuition congruence.
Qed.

(** Every start that [get_events] returns is aware. *)
Lemma get_events_aware w calendar start_date end_date evs :
  get_events w calendar start_date end_date = Ok evs ->
  forall ev, In ev evs -> DT.aware (start ev).
Proof.
  unfold get_events. destruct calendar as [cal|]; [|now intros [= <-] ev []].
  destruct (w_between w cal start_date end_date) as [raw|]; [|discriminate].
  simpl. destruct (map_result (format_event w) raw) as [l|] eqn:Hl;
    [|discriminate].
  simpl. intros [= <-] ev Hev.
  apply (proj1 (in_sorted_by_start _ _)) in Hev.
  destruct (proj1 (map_result_spec _ _ _ Hl) ev Hev) as (r & _ & Hr).
  now apply (format_event_aware w r).
Qed.

(** ** One tick *)

(** What a [try] with a handler that always returns can be left by. *)
Lemma try_except_raises {A} (body : M A) handler st e :
  (forall e' st', exists a, (handler e' st').1 = Ok a) ->
  (try_except body handler st).1 = Raise e -> e = CancelledError.
Proof.
  intros Hh. unfold try_except.
  destruct (body st) as [[a|[cls msg|]] st1]; simpl.
  - discriminate.
  - destruct (Hh (Exception cls msg) st1) as [a Ha]. rewrite Ha. discriminate.
  - now intros [= <-].
Qed.

Section Running.

Variable CHECK_INTERVAL : Z.
Variable NOTIFICATION_TIME : Z.
Variable cancelled : nat -> bool.
Variable others : nat -> gmap Z (gset string) -> gmap Z (gset string).

#[local] Abbreviation unavailable := (calendar_unavailable cancelled).
#[local] Abbreviation tick_now :=
  (tick CHECK_INTERVAL NOTIFICATION_TIME cancelled others).
#[local] Abbreviation tick_body_now :=
  (tick_body CHECK_INTERVAL NOTIFICATION_TIME cancelled others).
#[local] Abbreviation run :=
  (check_upcoming_events CHECK_INTERVAL NOTIFICATION_TIME cancelled others).
#[local] Abbreviation sleep := (asyncio_sleep cancelled others).

(** A sleep: its entry in the journal, and a suspension. *)
Lemma sleep_spec secs st :
  sleep secs st =
  ((if cancelled (awaited st) then Raise CancelledError else Ok tt),
   mkState (others (awaited st) (notified_events st)) (S (awaited st))
           (journal st ++ [Sleep secs])).
Proof.
  unfold asyncio_sleep, log, await, suspend. rewrite bind_unfold. simpl.
  now destruct (cancelled (awaited st)).
Qed.

Lemma sleep_raises secs st e :
  (sleep secs st).1 = Raise e -> e = CancelledError.
Proof.
  rewrite sleep_spec. simpl.
  destruct (cancelled _); simpl; [now intros [= <-]|discriminate].
Qed.

Lemma db_close_spec w st :
  db_close w st = (of_outcome (w_db_close w), emit DbClose st).
Proof. reflexivity. Qed.

#[local] Abbreviation guarded_now :=
  (guarded CHECK_INTERVAL NOTIFICATION_TIME cancelled others).

Lemma tick_unfold w st :
  tick_now w st =
  match guarded_now w st with
  | (Ok Continue, st') => (Ok tt, st')
  | (Ok Fallthrough, st') => sleep CHECK_INTERVAL st'
  | (Raise e, st') => (Raise e, st')
  end.
Proof.
  unfold tick. rewrite bind_unfold.
  now destruct (guarded_now w st) as [[[|]|e] st'].
Qed.

Lemma guarded_raises w st e :
  (guarded_now w st).1 = Raise e -> e = CancelledError \/ close_fails w e.
Proof.
  unfold guarded, try_finally.
  destruct (try_except _ _ st) as [r st1] eqn:Hr.
  rewrite db_close_spec.
  destruct (w_db_close w) as [[]|cls msg] eqn:Hc; simpl.
  - intros ->. left.
    eapply try_except_raises; cycle 1.
    + rewrite Hr. reflexivity.
    + intros e' st'. now exists Fallthrough.
  - intros [= <-]. right. now exists cls, msg.
Qed.

(** A turn of the loop is left by nothing but a cancellation or an
    exception raised when its session is closed. *)
Lemma tick_raises w st e :
  (tick_now w st).1 = Raise e -> e = CancelledError \/ close_fails w e.
Proof.
  rewrite tick_unfold.
  pose proof (guarded_raises w st) as Hg.
  destruct (guarded_now w st) as [[[|]|e'] st1]; simpl in *.
  - discriminate.
  - intros H. left. now apply sleep_raises in H.
  - intros [= <-]. now apply Hg.
Qed.

Lemma run_raises ws st e :
  (run ws st).1 = Raise e ->
  e = CancelledError \/ exists w, In w ws /\ close_fails w e.
Proof.
  revert st. induction ws as [|w ws IH]; intros st; [discriminate|].
  simpl. rewrite bind_unfold.
  pose proof (tick_raises w st) as Ht.
  destruct (tick_now w st) as [[[]|e'] st1]; simpl in *.
  - intros H. destruct (IH st1 H) as [->|(w' & Hw' & Hc)]; [now left|].
    right. exists w'. split; [now right|exact Hc].
  - intros [= <-]. destruct (Ht e' eq_refl) as [->|Hc]; [now left|].
    right. exists w. split; [now left|exact Hc].
Qed.

(** The two early ways out of a turn: the log entry, the dict cleared, and
    then the sleep and [continue]. *)
Lemma early_exit e st :
  (log e;; clear;; sleep CHECK_INTERVAL;; mret Continue) st
  = (sleep CHECK_INTERVAL;; mret Continue) (cleared e st).
Proof. reflexivity. Qed.

Lemma sleep_continue st :
  (sleep CHECK_INTERVAL;; mret Continue) st =
  ((if cancelled (awaited st) then Raise CancelledError else Ok Continue),
   mkState (others (awaited st) (notified_events st)) (S (awaited st))
           (journal st ++ [Sleep CHECK_INTERVAL])).
Proof.
  rewrite bind_unfold, sleep_spec. now destruct (cancelled (awaited st)).
Qed.

Lemma fetch_calendar_fails w url st :
  fetch_fails cancelled w url (awaited st) ->
  exists st1 msg,
    fetch_calendar cancelled others w url st = (Ok None, st1) /\
    journal st1 = journal st ++ [LogError msg].
Proof.
  intros [Hc0 H]. revert H.
  unfold fetch_calendar, try_except, await, suspend.
  rewrite bind_unfold. simpl. rewrite Hc0.
  destruct (w_http_get w url) as [response|cls msg]; simpl.
  - destruct (Z.eqb_spec (status response) 200) as [E|E].
    + intros [H|[Hc1 H]]; [contradiction|].
      rewrite bind_unfold. simpl. rewrite Hc1.
      destruct (text response) as [ical_data|cls msg]; simpl.
      * destruct H as (cls & msg & ->). simpl.
        repeat (rewrite bind_unfold; simpl). eauto.
      * repeat (rewrite bind_unfold; simpl). eauto.
    + intros _. repeat (rewrite bind_unfold; simpl). eauto.
  - intros _. repeat (rewrite bind_unfold; simpl). eauto.
Qed.

(** A tick that does not have its calendar gets to its sleep with the
    entry logged and the dict cleared. *)
Lemma tick_body_unavailable w now st :
  unavailable w st ->
  exists st0 pre,
    journal st0 = journal st ++ pre /\
    tick_body_now w now st =
    (sleep CHECK_INTERVAL;; mret Continue) (cleared (unavailable_entry w) st0).
Proof.
  intros [Hnone|(row & Hrow & Hfail)]; unfold tick_body;
    rewrite bind_unfold; unfold lift, logging_warning, logging_error.
  - rewrite Hnone. cbn [of_outcome]. rewrite early_exit.
    exists st, []. split; [now rewrite app_nil_r|].
    unfold unavailable_entry. now rewrite Hnone.
  - rewrite Hrow. cbn [of_outcome]. rewrite bind_unfold.
    destruct (fetch_calendar_fails w (url row) st Hfail)
      as (st1 & msg & -> & Hj1).
    rewrite early_exit. exists st1, [LogError msg]. split; [exact Hj1|].
    unfold unavailable_entry. now rewrite Hrow.
Qed.

(** The sleep of a turn and the closing of its session, whichever way
    they end. *)
Lemma sleep_then_close w st :
  journal (try_finally (sleep CHECK_INTERVAL) (db_close w) st).2
  = journal st ++ [Sleep CHECK_INTERVAL; DbClose] /\
  notified_events (try_finally (sleep CHECK_INTERVAL) (db_close w) st).2
  = others (awaited st) (notified_events st).
Proof.
  unfold try_finally. rewrite sleep_spec, db_close_spec.
  destruct (w_db_close w) as [[]|cls msg]; simpl; rewrite <- app_assoc;
    now split.
Qed.

(** The turn of a tick that does not have its calendar is the rest of it
    from the state in which its sleep begins. *)
Lemma tick_unavailable w st :
  unavailable w st ->
  exists st0 pre,
    journal st0 = journal st ++ pre /\
    tick_now w st =
    try_finally (sleep CHECK_INTERVAL) (db_close w)
      (cleared (unavailable_entry w) st0).
Proof.
  intros H.
  destruct (tick_body_unavailable w (w_now w) st H) as (st0 & pre & Hj & Hb).
  exists st0, pre. split; [exact Hj|].
  unfold tick. rewrite bind_unfold. unfold guarded, try_finally, try_except.
  rewrite Hb. rewrite bind_unfold.
  set (st1 := cleared (unavailable_entry w) st0).
  rewrite (sleep_spec CHECK_INTERVAL st1).
  destruct (cancelled (awaited st1)); simpl;
    now destruct (w_db_close w) as [[]|cls msg].
Qed.

Lemma tick_unavailable_journal w st :
  unavailable w st ->
  exists pre,
    since st (tick_now w st).2 =
    pre ++ [unavailable_entry w; Sleep CHECK_INTERVAL; DbClose].
Proof.
  intros H. destruct (tick_unavailable w st H) as (st0 & pre & Hj & ->).
  exists pre. apply since_app.
  rewrite (proj1 (sleep_then_close w _)). simpl.
  now rewrite Hj, <- !app_assoc.
Qed.

Lemma bind_Ok_inv {A B} (m : M A) (k : A -> M B) st b st' :
  (m ≫= k) st = (Ok b, st') ->
  exists a st1, m st = (Ok a, st1) /\ k a st1 = (Ok b, st').
Proof.
  rewrite bind_unfold. destruct (m st) as [[a|e] st1]; [|discriminate].
  intros H. now exists a, st1.
Qed.

(** A turn that ends by [continue] has slept. *)
Lemma tick_body_continue w now st st1 :
  tick_body_now w now st = (Ok Continue, st1) ->
  In (Sleep CHECK_INTERVAL) (since st st1).
Proof.
  unfold tick_body. intros H.
  apply bind_Ok_inv in H as (calendar_obj & st0 & H0 & H).
  unfold lift in H0. injection H0 as H0 <-.
  destruct calendar_obj as [row|].
  - apply bind_Ok_inv in H as (calendar & st2 & Hf & H).
    destruct (orderly_fetch_calendar cancelled others w (url row) st)
      as (seg & Hj & _).
    rewrite Hf in Hj. simpl in Hj.
    destruct calendar as [cal|].
    + apply bind_Ok_inv in H as (? & ? & _ & H).
      apply bind_Ok_inv in H as (? & ? & _ & H).
      apply bind_Ok_inv in H as (? & ? & _ & H).
      apply bind_Ok_inv in H as (? & ? & _ & H).
      apply bind_Ok_inv in H as (? & ? & _ & H).
      discriminate H.
    + unfold logging_error in H. rewrite early_exit, sleep_continue in H.
      injection H as _ <-.
      erewrite since_app; [|simpl; rewrite Hj, <- !app_assoc; reflexivity].
      apply in_app_iff. right. simpl. auto.
  - unfold logging_warning in H. rewrite early_exit, sleep_continue in H.
    injection H as _ <-.
    erewrite since_app; [|simpl; rewrite <- !app_assoc; reflexivity].
    simpl. auto.
Qed.

Lemma guarded_continue w st st1 :
  guarded_now w st = (Ok Continue, st1) ->
  In (Sleep CHECK_INTERVAL) (since st st1).
Proof.
  unfold guarded, try_finally, try_except, db_close, logging_error, log, lift.
  destruct (tick_body_now w (w_now w) st) as [[fl|[cls msg|]] st0] eqn:Hb;
    repeat (rewrite bind_unfold; simpl);
    destruct (w_db_close w) as [[]|cls' msg']; simpl;
    intros H; injection H as H <-; try discriminate H.
  subst fl.
  destruct (orderly_tick_body CHECK_INTERVAL NOTIFICATION_TIME cancelled others
              w (w_now w) st) as (seg & Hj & _).
  rewrite Hb in Hj. simpl in Hj.
  apply tick_body_continue in Hb. rewrite (since_app _ _ _ Hj) in Hb.
  rewrite (since_app _ _ (seg ++ [DbClose])).
  - apply in_app_iff. now left.
  - simpl. rewrite Hj. now rewrite <- app_assoc.
Qed.

(** An exception raised under [try] is logged and the session is closed;
    when that goes through, the turn then sleeps. *)
Lemma tick_logs_exception w st cls msg st1 :
  tick_body_now w (w_now w) st = (Raise (Exception cls msg), st1) ->
  w_db_close w = Returns tt ->
  since st (tick_now w st).2 =
  since st st1 ++ [LogError ("Ошибка при проверке событий: " +:+ msg); DbClose;
                   Sleep CHECK_INTERVAL] /\
  (tick_now w st).1 =
  (if cancelled (awaited st1) then Raise CancelledError else Ok tt).
Proof.
  intros Hb Hc.
  destruct (orderly_tick_body CHECK_INTERVAL NOTIFICATION_TIME cancelled others
              w (w_now w) st) as (seg & Hj & _).
  rewrite Hb in Hj. simpl in Hj.
  rewrite tick_unfold.
  unfold guarded, try_finally, try_except, db_close, logging_error, log, lift.
  rewrite Hb, Hc. repeat (rewrite bind_unfold; simpl).
  rewrite sleep_spec. simpl. split.
  - rewrite (since_app _ _ _ Hj). apply since_app. rewrite Hj.
    now rewrite <- !app_assoc.
  - reflexivity.
Qed.

Section NotCancelled.

Hypothesis not_cancelled : forall k, cancelled k = false.

Lemma polite_await {A} (op : nat -> outcome A) :
  polite (await cancelled others op).
Proof.
  intros st. unfold await. rewrite not_cancelled. apply gentle_of_outcome.
Qed.

Lemma polite_sleep secs : polite (sleep secs).
Proof.
  unfold asyncio_sleep. apply polite_bind; [apply polite_log|].
  intros _. apply polite_await.
Qed.

Lemma polite_fetch_calendar w url :
  polite (fetch_calendar cancelled others w url).
Proof.
  unfold fetch_calendar. apply polite_try_except.
  - apply polite_bind; [apply polite_await|]. intros response.
    destruct (status response =? 200).
    + apply polite_bind; [apply polite_await|]. intros ical_data.
      apply polite_bind; [apply polite_lift, gentle_of_outcome|]. intros cal.
      apply polite_ret.
    + apply polite_bind; [apply polite_log|]. intros _. apply polite_ret.
  - intros e. apply polite_bind; [apply polite_log|]. intros _.
    apply polite_ret.
Qed.

Lemma polite_send_message w u ev text :
  polite (send_message cancelled others w u ev text).
Proof.
  intros st. unfold send_message.
  pose proof (polite_await (fun k => w_send_message w k u text) st) as H.
  now destruct (await _ _ _ st) as [r st1].
Qed.

Lemma polite_notify w now u ev :
  polite (notify NOTIFICATION_TIME cancelled others w now u ev).
Proof.
  unfold notify.
  apply polite_bind; [apply polite_lift, gentle_time_diff|]. intros td.
  destruct (in_lead _ _); [|apply polite_ret].
  apply polite_bind; [apply polite_getitem|]. intros s.
  case_bool_decide; [apply polite_ret|].
  apply polite_try_except.
  - apply polite_bind; [apply polite_send_message|]. intros _.
    apply polite_mark.
  - intros e. apply polite_bind; [apply polite_log|]. intros _.
    apply polite_sleep.
Qed.

Lemma polite_notify_users w now users events :
  polite (notify_users NOTIFICATION_TIME cancelled others w now users events).
Proof.
  unfold notify_users. apply polite_for_each. intros user.
  unfold notify_user. apply polite_bind.
  - intros st. unfold ensure_set.
    destruct (notified_events st !! user_id user); discriminate.
  - intros _. apply polite_for_each. intros ev. apply polite_notify.
Qed.

Lemma polite_tick_body w now : polite (tick_body_now w now).
Proof.
  unfold tick_body.
  apply polite_bind; [apply polite_lift, gentle_of_outcome|].
  intros [row|].
  - apply polite_bind; [apply polite_fetch_calendar|]. intros [cal|].
    + apply polite_bind; [apply polite_lift, gentle_of_outcome|].
      intros subscribed_users.
      apply polite_bind; [apply polite_lift, gentle_add|]. intros end_time.
      apply polite_bind; [apply polite_lift, gentle_get_events|].
      intros events.
      apply polite_bind; [apply polite_notify_users|]. intros _.
      apply polite_bind; [apply polite_prune|]. intros _.
      apply polite_ret.
    + apply polite_bind; [apply polite_log|]. intros _.
      apply polite_bind; [apply polite_clear|]. intros _.
      apply polite_bind; [apply polite_sleep|]. intros _.
      apply polite_ret.
  - apply polite_bind; [apply polite_log|]. intros _.
    apply polite_bind; [apply polite_clear|]. intros _.
    apply polite_bind; [apply polite_sleep|]. intros _.
    apply polite_ret.
Qed.

Lemma polite_guarded w : polite (guarded_now w).
Proof.
  unfold guarded. apply polite_try_finally.
  - apply polite_try_except; [apply polite_tick_body|].
    intros e. apply polite_bind; [apply polite_log|]. intros _.
    apply polite_ret.
  - unfold db_close. apply polite_bind; [apply polite_log|]. intros _.
    apply polite_lift, gentle_of_outcome.
Qed.

(** With no cancellation, a turn of the loop returns when its session is
    closed without an exception. *)
Lemma tick_returns w st :
  w_db_close w = Returns tt -> (tick_now w st).1 = Ok tt.
Proof.
  intros Hc.
  pose proof (tick_raises w st) as Hr.
  assert (gentle (tick_now w st).1) as Hg.
  { rewrite tick_unfold. pose proof (polite_guarded w st) as Hg.
    destruct (guarded_now w st) as [[[|]|e'] st1]; simpl in *.
    - discriminate.
    - apply polite_sleep.
    - exact (gentle_Raise e' Hg). }
  destruct (tick_now w st).1 as [[]|e]; [reflexivity|].
  destruct (Hr e eq_refl) as [->|(cls & msg & Hf & _)]; [now destruct Hg|].
  congruence.
Qed.

(** With no cancellation, every turn of the loop whose session is closed
    without an exception sleeps for the configured interval. *)
Lemma tick_sleeps w st :
  w_db_close w = Returns tt ->
  In (Sleep CHECK_INTERVAL) (since st (tick_now w st).2).
Proof.
  intros Hc. rewrite tick_unfold.
  pose proof (polite_guarded w st) as Hp.
  pose proof (guarded_raises w st) as Hr.
  destruct (orderly_since (guarded_now w) st
              (orderly_guarded CHECK_INTERVAL NOTIFICATION_TIME cancelled others
                 w))
    as [Hj _].
  destruct (guarded_now w st) as [[[|]|e] st1] eqn:Hg; simpl in *.
  - now apply (guarded_continue w).
  - rewrite sleep_spec. simpl.
    rewrite (since_app _ _ (since st st1 ++ [Sleep CHECK_INTERVAL])).
    + apply in_app_iff. right. now left.
    + simpl. rewrite Hj at 1. now rewrite <- app_assoc.
  - exfalso. destruct (Hr e eq_refl) as [->|(cls & msg & Hf & _)];
      [now apply Hp|congruence].
Qed.

(** With no cancellation, and with every session closed without an
    exception, the loop goes through all its turns: each is the tick of
    its world from the state the turn before it left, it returns, it has
    its sleep, and every failed send of it is logged. *)
Lemma run_all_turns ws st :
  Forall (fun w => w_db_close w = Returns tt) ws ->
  (run ws st).1 = Ok tt /\
  (run ws st).2 = fold_left (fun s w => (tick_now w s).2) ws st.
Proof.
  revert st. induction ws as [|w ws IH]; intros st Hall; [now split|].
  apply Forall_cons in Hall as [Hw Hall].
  simpl. rewrite bind_unfold.
  pose proof (tick_returns w st Hw) as Hok.
  destruct (tick_now w st) as [r st1]; simpl in *; subst r.
  now apply IH.
Qed.

End NotCancelled.

Lemma quiet_nil : quiet [].
Proof. intros u ev r []. Qed.

Lemma quiet_app a b : quiet a -> quiet b -> quiet (a ++ b).
Proof.
  intros Ha Hb u ev r Hin. apply in_app_iff in Hin as [Hin|Hin];
    [now apply (Ha u ev r)|now apply (Hb u ev r)].
Qed.

Lemma attempted_quiet seg u id : quiet seg -> ~ attempted seg u id.
Proof. intros Hq (ev & r & Hin & _). now apply (Hq u ev r). Qed.

Lemma attempted_app seg chunk u id :
  attempted (seg ++ chunk) u id <-> attempted seg u id \/ attempted chunk u id.
Proof.
  unfold attempted. split.
  - intros (ev & r & Hin & Hid). apply in_app_iff in Hin as [Hin|Hin]; eauto.
  - intros [(ev & r & Hin & Hid)|(ev & r & Hin & Hid)]; exists ev, r;
      (split; [apply in_app_iff; auto|exact Hid]).
Qed.

Lemma attempted_app_quiet seg tail u id :
  quiet tail -> attempted (seg ++ tail) u id <-> attempted seg u id.
Proof.
  intros Hq. rewrite attempted_app. split; [|now left].
  intros [H|H]; [exact H|]. now destruct (attempted_quiet tail u id Hq).
Qed.

Lemma delivered_app_quiet seg tail u id :
  quiet tail -> delivered (seg ++ tail) u id <-> delivered seg u id.
Proof.
  intros Hq. rewrite delivered_app. split; [|now left].
  intros [H|(ev & Hin & _)]; [exact H|]. now destruct (Hq u ev (Ok tt)).
Qed.

(** What the download leaves behind. *)
Lemma fetch_calendar_spec w url st :
  (exists logs,
     journal (fetch_calendar cancelled others w url st).2 = journal st ++ logs
     /\ quiet logs) /\
  (forall cal, (fetch_calendar cancelled others w url st).1 = Ok (Some cal) ->
     (fetch_calendar cancelled others w url st).2 = after_fetch others st /\
     cancelled (awaited st) = false /\ cancelled (S (awaited st)) = false /\
     fetched w url cal).
Proof.
  assert (forall msg, quiet [LogError msg]) as Hq.
  { intros msg u ev r [H|[]]. discriminate H. }
  unfold fetch_calendar, try_except, await, logging_error, log.
  rewrite bind_unfold. simpl.
  destruct (cancelled (awaited st)) eqn:Hc0; simpl.
  { split; [|discriminate].
    exists []. rewrite app_nil_r. split; [done|apply quiet_nil]. }
  destruct (w_http_get w url) as [response|cls msg] eqn:Hget; simpl.
  2:{ repeat (rewrite bind_unfold; simpl). split; [|discriminate].
      eexists. split; [reflexivity|apply Hq]. }
  destruct (Z.eqb_spec (status response) 200) as [Hst|Hst].
  2:{ repeat (rewrite bind_unfold; simpl).
      split; [|discriminate]. eexists. split; [reflexivity|apply Hq]. }
  rewrite bind_unfold. simpl.
  destruct (cancelled (S (awaited st))) eqn:Hc1; simpl.
  { split; [|discriminate].
    exists []. rewrite app_nil_r. split; [done|apply quiet_nil]. }
  destruct (text response) as [ical_data|cls msg] eqn:Htext; simpl.
  2:{ repeat (rewrite bind_unfold; simpl). split; [|discriminate].
      eexists. split; [reflexivity|apply Hq]. }
  rewrite bind_unfold. unfold lift.
  destruct (w_from_ical w ical_data) as [cal|cls msg] eqn:Hparse; simpl.
  2:{ repeat (rewrite bind_unfold; simpl). split; [|discriminate].
      eexists. split; [reflexivity|apply Hq]. }
  split.
  - exists []. rewrite app_nil_r. split; [done|apply quiet_nil].
  - intros cal' [= <-]. split; [reflexivity|]. split; [done|]. split; [done|].
    now exists response, ical_data.
Qed.

#[local] Abbreviation delivering w users events :=
  (notify_users NOTIFICATION_TIME cancelled others w (w_now w) users events;;
   prune (w_now w);; mret Fallthrough).

(** A tick that has its calendar, its recipients and its occurrences does
    the loop over the recipients and then prunes. *)
Lemma tick_body_delivering w st users events :
  tick_delivers w users events ->
  cancelled (awaited st) = false -> cancelled (S (awaited st)) = false ->
  tick_body_now w (w_now w) st
  = delivering w users events (after_fetch others st).
Proof.
  intros (row & cal & end_time & Hrow & Hf & Hus & Hend & Hevs) Hc0 Hc1.
  destruct Hf as (response & ical_data & Hget & Hst & Htext & Hparse).
  unfold tick_body. rewrite bind_unfold. unfold lift at 1. rewrite Hrow.
  cbn [of_outcome]. rewrite bind_unfold.
  assert (fetch_calendar cancelled others w (url row) st
          = (Ok (Some cal), after_fetch others st)) as ->.
  { unfold fetch_calendar, try_except, await. rewrite bind_unfold. simpl.
    rewrite Hc0, Hget. simpl. rewrite Hst. simpl. rewrite bind_unfold. simpl.
    rewrite Hc1, Htext. simpl. rewrite bind_unfold. unfold lift.
    now rewrite Hparse. }
  rewrite bind_unfold. unfold lift at 1. rewrite Hus. cbn [of_outcome].
  rewrite bind_unfold. unfold lift at 1. rewrite Hend.
  rewrite bind_unfold. unfold lift at 1. rewrite Hevs. reflexivity.
Qed.

(** A tick makes no send, or it is one that has its calendar, its
    recipients and its occurrences. *)
Lemma tick_body_cases w st :
  quiet (since st (tick_body_now w (w_now w) st).2) \/
  exists users events,
    tick_delivers w users events /\
    cancelled (awaited st) = false /\ cancelled (S (awaited st)) = false.
Proof.
  assert (forall st', journal st' = journal st -> quiet (since st st')) as Hsame.
  { intros st' Hj. rewrite (since_app st st' []); [apply quiet_nil|].
    now rewrite app_nil_r. }
  assert (forall e st0 logs,
            journal st0 = journal st ++ logs -> quiet logs ->
            (forall u ev r, e <> Delivery u ev r) ->
            quiet (since st
              ((log e;; clear;; sleep CHECK_INTERVAL;; mret Continue) st0).2))
    as Hearly.
  { intros e st0 logs Hj Hq He.
    rewrite early_exit, sleep_continue. simpl.
    rewrite (since_app st _ (logs ++ [e; Sleep CHECK_INTERVAL])).
    - apply quiet_app; [exact Hq|].
      intros u ev r [H|[H|[]]]; [now destruct (He u ev r)|discriminate H].
    - simpl. rewrite Hj. now rewrite <- !app_assoc. }
  unfold tick_body. rewrite bind_unfold. unfold lift at 1.
  destruct (w_get_calendar w) as [[row|]|cls msg] eqn:Hrow; cbn [of_outcome].
  - rewrite bind_unfold.
    destruct (fetch_calendar_spec w (url row) st) as ((logs & Hj & Hq) & Hok).
    destruct (fetch_calendar cancelled others w (url row) st)
      as [[[cal|]|e] st1]; cbn [fst snd] in *.
    + destruct (Hok cal eq_refl) as (-> & Hc0 & Hc1 & Hf).
      rewrite bind_unfold. unfold lift at 1.
      destruct (w_get_all_subscribed_users w) as [users|cls msg] eqn:Hus;
        cbn [of_outcome]; [|left; now apply Hsame].
      rewrite bind_unfold. unfold lift at 1.
      destruct (DT.add (w_now w) (DT.hours 1)) as [end_time|e] eqn:Hend;
        [|left; now apply Hsame].
      rewrite bind_unfold. unfold lift at 1.
      destruct (get_events w (Some cal) (w_now w) end_time) as [events|e]
        eqn:Hevs; [|left; now apply Hsame].
      right. exists users, events. split; [|now split].
      now exists row, cal, end_time.
    + left. unfold logging_error. apply (Hearly _ _ logs Hj Hq).
      intros u ev r. discriminate.
    + left. now rewrite (since_app _ _ _ Hj).
  - left. unfold logging_warning. apply (Hearly _ st []).
    + now rewrite app_nil_r.
    + apply quiet_nil.
    + intros u ev r. discriminate.
  - left. now apply Hsame.
Qed.

(** What comes after the body of the tick adds no send. *)
Lemma tick_after_body w st :
  exists tail,
    quiet tail /\
    journal (tick_now w st).2 =
    journal (tick_body_now w (w_now w) st).2 ++ tail.
Proof.
  rewrite tick_unfold.
  unfold guarded, try_finally, try_except, db_close, logging_error, log, lift.
  destruct (tick_body_now w (w_now w) st) as [[[|]|[cls msg|]] st1];
    repeat (rewrite bind_unfold; simpl);
    destruct (w_db_close w) as [[]|cls' msg']; simpl;
    try rewrite sleep_spec; simpl; rewrite <- ?app_assoc; simpl;
    (eexists; split; [|reflexivity]);
    intros u ev r Hin; simpl in Hin; intuition discriminate.
Qed.

(** In a tick that has its calendar, its recipients and its occurrences,
    the sends are those of the loop over the recipients. *)
Lemma tick_delivering_journal w st users events :
  tick_delivers w users events ->
  cancelled (awaited st) = false -> cancelled (S (awaited st)) = false ->
  exists tail,
    quiet tail /\
    since st (tick_now w st).2 =
    since (after_fetch others st)
      (notify_users NOTIFICATION_TIME cancelled others w (w_now w) users events
         (after_fetch others st)).2 ++ tail.
Proof.
  intros Hd Hc0 Hc1.
  destruct (tick_after_body w st) as (tail & Hq & Hj).
  exists tail. split; [exact Hq|].
  rewrite (tick_body_delivering w st users events Hd Hc0 Hc1) in Hj.
  destruct (orderly_since
              (notify_users NOTIFICATION_TIME cancelled others w (w_now w)
                 users events)
              (after_fetch others st)
              (orderly_notify_users NOTIFICATION_TIME cancelled others w
                 (w_now w) users events)) as [Hjn _].
  assert (journal (delivering w users events (after_fetch others st)).2 =
          journal (notify_users NOTIFICATION_TIME cancelled others w (w_now w)
                     users events (after_fetch others st)).2) as Hsame.
  { rewrite bind_unfold.
    destruct (notify_users _ _ _ _ _ _ _ (after_fetch others st))
      as [[[]|e] st2]; simpl; [|reflexivity].
    rewrite bind_unfold.
    destruct (prune_thins (w_now w) st2) as (_ & Hjp & _).
    now destruct (prune (w_now w) st2) as [[[]|e] st3]. }
  apply since_app. rewrite Hj, Hsame, Hjn at 1. simpl.
  now rewrite <- app_assoc.
Qed.

(** The sends of any tick are those of a loop over the recipients, if
    there are any. *)
Lemma tick_sends w st :
  quiet (since st (tick_now w st).2) \/
  exists users events tail,
    tick_delivers w users events /\
    cancelled (awaited st) = false /\ cancelled (S (awaited st)) = false /\
    quiet tail /\
    since st (tick_now w st).2 =
    since (after_fetch others st)
      (notify_users NOTIFICATION_TIME cancelled others w (w_now w) users events
         (after_fetch others st)).2 ++ tail.
Proof.
  destruct (tick_body_cases w st) as [Hquiet|(users & events & Hd & Hc0 & Hc1)].
  - left.
    destruct (tick_after_body w st) as (tail & Hq & Hj).
    destruct (orderly_since (tick_body_now w (w_now w)) st
                (orderly_tick_body CHECK_INTERVAL NOTIFICATION_TIME cancelled
                   others w (w_now w))) as [Hjb _].
    rewrite (since_app _ _ (since st (tick_body_now w (w_now w) st).2 ++ tail)).
    + now apply quiet_app.
    + rewrite Hj, Hjb at 1. now rewrite <- app_assoc.
  - right.
    destruct (tick_delivering_journal w st users events Hd Hc0 Hc1)
      as (tail & Hq & Hj).
    now exists users, events, tail.
Qed.

End Running.

(** ** One tick, summed up *)

Lemma tick_delivers_unique w users events users' events' :
  tick_delivers w users events -> tick_delivers w users' events' ->
  users = users' /\ events = events'.
Proof.
  intros (row & cal & end_time & Hrow & Hf & Hus & Hend & Hevs)
         (row' & cal' & end_time' & Hrow' & Hf' & Hus' & Hend' & Hevs').
  rewrite Hrow in Hrow'. injection Hrow' as <-.
  destruct Hf as (response & ical_data & Hget & _ & Htext & Hparse).
  destruct Hf' as (response' & ical_data' & Hget' & _ & Htext' & Hparse').
  rewrite Hget in Hget'. injection Hget' as <-.
  rewrite Htext in Htext'. injection Htext' as <-.
  rewrite Hparse in Hparse'. injection Hparse' as <-.
  rewrite Hus in Hus'. injection Hus' as <-.
  rewrite Hend in Hend'. injection Hend' as <-.
  rewrite Hevs in Hevs'. injection Hevs' as <-.
  now split.
Qed.

Lemma tick_delivers_aware w users events :
  tick_delivers w users events ->
  forall ev, In ev events -> DT.aware (start ev).
Proof.
  intros (row & cal & end_time & _ & _ & _ & _ & Hevs).
  exact (get_events_aware _ _ _ _ _ Hevs).
Qed.

Section TickSummary.

Variable CHECK_INTERVAL : Z.
Variable NOTIFICATION_TIME : Z.
Variable cancelled : nat -> bool.

#[local] Abbreviation tick_now :=
  (tick CHECK_INTERVAL NOTIFICATION_TIME cancelled nobody).
#[local] Abbreviation loop w users events :=
  (notify_users NOTIFICATION_TIME cancelled nobody w (w_now w) users events).

(** When no other task touches the dict, every send of a tick is for a
    subscribed recipient and an occurrence of the window that is due, and
    for a pair that is not recorded when the tick begins. *)
Lemma tick_attempts_sound w st u id :
  attempted (since st (tick_now w st).2) u id ->
  exists users events,
    tick_delivers w users events /\
    In u (map user_id users) /\
    (exists ev, In ev events /\ event_id_of ev = id /\
                within_lead NOTIFICATION_TIME (w_now w) ev) /\
    ~ has (notified_events st) u id.
Proof.
  intros Hatt.
  destruct (tick_sends CHECK_INTERVAL NOTIFICATION_TIME cancelled nobody w st)
    as [Hq|(users & events & tail & Hd & _ & _ & Hq & Hj)].
  - now destruct (attempted_quiet _ u id Hq).
  - rewrite Hj in Hatt. apply (proj1 (attempted_app_quiet _ _ _ _ Hq)) in Hatt.
    apply loop_attempts_sound in Hatt as (H1 & H2 & H3).
    now exists users, events.
Qed.

(** When no other task touches the dict, what comes after the body of the
    tick leaves the dict as it is. *)
Lemma tick_after_body_dict w st :
  notified_events (tick_now w st).2 =
  notified_events
    (tick_body CHECK_INTERVAL NOTIFICATION_TIME cancelled nobody w (w_now w)
       st).2.
Proof.
  rewrite tick_unfold.
  unfold guarded, try_finally, try_except, db_close, logging_error, log, lift.
  destruct (tick_body _ _ _ _ w (w_now w) st) as [[[|]|[cls msg|]] st1];
    repeat (rewrite bind_unfold; simpl);
    destruct (w_db_close w) as [[]|cls' msg']; simpl;
    try rewrite sleep_spec; reflexivity.
Qed.

(** What is recorded when a tick ends was recorded when its loop over the
    recipients ended. *)
Lemma tick_store_from_loop w st users events u id :
  tick_delivers w users events ->
  cancelled (awaited st) = false -> cancelled (S (awaited st)) = false ->
  has (notified_events (tick_now w st).2) u id ->
  has (notified_events (loop w users events (after_fetch nobody st)).2) u id.
Proof.
  intros Hd Hc0 Hc1.
  rewrite tick_after_body_dict.
  rewrite (tick_body_delivering CHECK_INTERVAL NOTIFICATION_TIME cancelled
             nobody w st users events Hd Hc0 Hc1).
  rewrite bind_unfold.
  destruct (loop w users events (after_fetch nobody st)) as [[[]|e] st2];
    simpl; [|auto].
  rewrite bind_unfold.
  destruct (prune_thins (w_now w) st2) as (Hth & _ & _).
  destruct (thinned_has _ _ _ Hth) as (_ & Hsub & _).
  destruct (prune (w_now w) st2) as [[[]|e] st3]; simpl in *; apply Hsub.
Qed.

Section NotCancelled.

Hypothesis not_cancelled : forall k, cancelled k = false.

Lemma tick_journal w st users events :
  tick_delivers w users events ->
  exists tail,
    quiet tail /\
    since st (tick_now w st).2 =
    since (after_fetch nobody st)
      (loop w users events (after_fetch nobody st)).2 ++ tail.
Proof.
  intros Hd.
  now apply (tick_delivering_journal CHECK_INTERVAL NOTIFICATION_TIME cancelled).
Qed.

(** With no cancellation, and when no other task touches the dict, a tick
    sends every pair of a subscribed recipient and an occurrence of the
    window that is due and not recorded. *)
Lemma tick_attempts_complete w st users events u id :
  DT.aware (w_now w) ->
  tick_delivers w users events ->
  In u (map user_id users) ->
  (exists ev, In ev events /\ event_id_of ev = id /\
              within_lead NOTIFICATION_TIME (w_now w) ev) ->
  ~ has (notified_events st) u id ->
  attempted (since st (tick_now w st).2) u id.
Proof.
  intros Hnow Hd Hu Hev Hnot.
  destruct (tick_journal w st users events Hd) as (tail & Hq & ->).
  apply attempted_app_quiet; [exact Hq|].
  apply loop_attempts_complete; try assumption.
  now apply (tick_delivers_aware w users).
Qed.

End NotCancelled.

End TickSummary.

(** ** The test of line 670, whatever the other tasks do *)

Section Test.

Variable NOTIFICATION_TIME : Z.
Variable cancelled : nat -> bool.
Variable others : nat -> gmap Z (gset string) -> gmap Z (gset string).
Variable w : world.
Variable now : DT.datetime.

#[local] Abbreviation notify_now :=
  (notify NOTIFICATION_TIME cancelled others w now).
#[local] Abbreviation due := (within_lead NOTIFICATION_TIME now).

Lemma journal_grows_not (l : list io_event) x tail : l <> l ++ x :: tail.
Proof.
  intros H. apply (f_equal (@length _)) in H.
  rewrite length_app in H. simpl in H. lia.
Qed.

(** A send is made by [notify] exactly when the occurrence is due and its
    identity is not in the set that the recipient has at that moment. *)
Lemma notify_sends_iff u ev st :
  (exists r tail,
     journal (notify_now u ev st).2 = journal st ++ Delivery u ev r :: tail /\
     quiet tail) <->
  due ev /\
  exists s, notified_events st !! u = Some s /\ event_id_of ev ∉ s.
Proof.
  assert (forall msg, quiet [LogError msg; Sleep 1]) as Hq.
  { intros msg u' ev' r' [H|[H|[]]]; discriminate H. }
  destruct (notify_spec NOTIFICATION_TIME cancelled others w now u ev st)
    as [e Htd|td Htd Hl|Hw Hs|s Hw Hs Hin|s s1 Hw Hs Hin Hr Hs1
        |s Hw Hs Hin Hr Hs1|s cls msg Hw Hs Hin Hr|s Hw Hs Hin Hr].
  - split.
    + intros (r & tail & Hj & _). now destruct (journal_grows_not _ _ _ Hj).
    + intros [(td & Htd' & _) _]. congruence.
  - split.
    + intros (r & tail & Hj & _). now destruct (journal_grows_not _ _ _ Hj).
    + intros [Hw _]. rewrite (within_in_lead _ _ _ _ Htd Hw) in Hl.
      discriminate.
  - split.
    + intros (r & tail & Hj & _). now destruct (journal_grows_not _ _ _ Hj).
    + intros [_ (s & Hs' & _)]. congruence.
  - split.
    + intros (r & tail & Hj & _). now destruct (journal_grows_not _ _ _ Hj).
    + intros [_ (s' & Hs' & Hin')]. congruence.
  - split; [intros _; split; [exact Hw|now exists s]|].
    intros _. exists (Ok tt), []. split; [reflexivity|apply quiet_nil].
  - split; [intros _; split; [exact Hw|now exists s]|].
    intros _. eexists _, _. split; [reflexivity|apply Hq].
  - split; [intros _; split; [exact Hw|now exists s]|].
    intros _. eexists _, _. split; [reflexivity|apply Hq].
  - split; [intros _; split; [exact Hw|now exists s]|].
    intros _. eexists _, []. split; [reflexivity|apply quiet_nil].
Qed.

(** When [notify] makes a send: how the send ends, and what this task has
    then written to the dict. *)
Lemma notify_records u ev st s :
  due ev -> notified_events st !! u = Some s -> event_id_of ev ∉ s ->
  let k := awaited st in
  let d := others k (notified_events st) in
  let st' := (notify_now u ev st).2 in
  (forall s1,
     send_result cancelled w k u ev = Ok tt -> d !! u = Some s1 ->
     notified_events st' = <[u := {[event_id_of ev]} ∪ s1]> d /\
     journal st' = journal st ++ [Delivery u ev (Ok tt)]) /\
  (send_result cancelled w k u ev = Ok tt -> d !! u = None ->
     notified_events st' = others (S k) d /\
     journal st' =
     journal st ++
       [Delivery u ev (Ok tt);
        LogError (delivery_error u (Exception "KeyError" (PyStr.of_int u)));
        Sleep 1]) /\
  (forall cls msg,
     send_result cancelled w k u ev = Raise (Exception cls msg) ->
     notified_events st' = others (S k) d /\
     journal st' =
     journal st ++
       [Delivery u ev (Raise (Exception cls msg));
        LogError (delivery_error u (Exception cls msg)); Sleep 1]).
Proof.
  intros Hw Hs Hin k d st'. subst k d st'.
  destruct (notify_spec NOTIFICATION_TIME cancelled others w now u ev st)
    as [e Htd|td Htd Hl|Hw' Hs'|s' Hw' Hs' Hin'|s' s1 Hw' Hs' Hin' Hr Hs1
        |s' Hw' Hs' Hin' Hr Hs1|s' cls msg Hw' Hs' Hin' Hr|s' Hw' Hs' Hin' Hr].
  - destruct Hw as (td & Htd' & _). congruence.
  - rewrite (within_in_lead _ _ _ _ Htd Hw) in Hl. discriminate.
  - congruence.
  - congruence.
  - split; [|split]; [intros s2 _ Hs2|intros _ Hn|intros cls msg Hf];
      simpl; try congruence.
    rewrite Hs1 in Hs2. injection Hs2 as <-. now split.
  - split; [|split]; [intros s2 _ Hs2|intros _ Hn|intros cls msg Hf];
      simpl; try congruence. now split.
  - split; [|split]; [intros s2 Hok Hs2|intros Hok Hn|intros cls' msg' Hf];
      simpl; try congruence.
    rewrite Hr in Hf. injection Hf as <- <-. now split.
  - split; [|split]; [intros s2 Hok Hs2|intros Hok Hn|intros cls' msg' Hf];
      congruence.
Qed.

(** An exception leaves [notify] only from its test: no send has been made
    and nothing is changed.  The exception of a send does not leave it. *)
Lemma notify_raises u ev st cls msg :
  (notify_now u ev st).1 = Raise (Exception cls msg) ->
  (notify_now u ev st).2 = st /\
  (time_diff (start ev) now = Raise (Exception cls msg) \/
   notified_events st !! u = None).
Proof.
  destruct (notify_spec NOTIFICATION_TIME cancelled others w now u ev st)
    as [e Htd|td Htd Hl|Hw Hs|s Hw Hs Hin|s s1 Hw Hs Hin Hr Hs1
        |s Hw Hs Hin Hr Hs1|s cls' msg' Hw Hs Hin Hr|s Hw Hs Hin Hr];
    try discriminate.
  - intros [= ->]. split; [reflexivity|now left].
  - intros _. split; [reflexivity|now right].
  - destruct (cancelled _); discriminate.
  - destruct (cancelled _); discriminate.
Qed.

(** No send is made for a pair that is recorded when the test is made. *)
Lemma notify_known_quiet u ev st :
  has (notified_events st) u (event_id_of ev) ->
  journal (notify_now u ev st).2 = journal st.
Proof.
  intros (s0 & Hs0 & Hin0).
  destruct (notify_spec NOTIFICATION_TIME cancelled others w now u ev st)
    as [e Htd|td Htd Hl|Hw Hs|s Hw Hs Hin|s s1 Hw Hs Hin Hr Hs1
        |s Hw Hs Hin Hr Hs1|s cls' msg' Hw Hs Hin Hr|s Hw Hs Hin Hr];
    try reflexivity; congruence.
Qed.

End Test.

(** ** A mark that the other tasks leave in place *)

Section Marked.

Variable CHECK_INTERVAL : Z.
Variable NOTIFICATION_TIME : Z.
Variable cancelled : nat -> bool.
Variable others : nat -> gmap Z (gset string) -> gmap Z (gset string).
Variable u : Z.
Variable id : string.

Hypothesis kept : forall k d, has d u id -> has (others k d) u id.

#[local] Abbreviation marked st := (has (notified_events st) u id).

Lemma notify_marked w now u' ev st :
  marked st ->
  marked (notify NOTIFICATION_TIME cancelled others w now u' ev st).2 /\
  ~ attempted
      (since st (notify NOTIFICATION_TIME cancelled others w now u' ev st).2)
      u id.
Proof.
  intros Hm.
  assert (forall r tail s, quiet tail ->
            notified_events st !! u' = Some s -> event_id_of ev ∉ s ->
            ~ attempted (Delivery u' ev r :: tail) u id) as Hnew.
  { intros r tail s Hq Hs Hin (ev' & r' & [Heq|Hin'] & Hid).
    - injection Heq as -> -> ->. destruct Hm as (s' & Hs' & Hin').
      rewrite Hs in Hs'. injection Hs' as <-. now rewrite Hid in Hin.
    - now apply (Hq u ev' r'). }
  assert (forall msg, quiet [LogError msg; Sleep 1]) as Hq.
  { intros msg u0 ev0 r0 [H|[H|[]]]; discriminate H. }
  destruct (notify_spec NOTIFICATION_TIME cancelled others w now u' ev st)
    as [e Htd|td Htd Hl|Hw Hs|s Hw Hs Hin|s s1 Hw Hs Hin Hr Hs1
        |s Hw Hs Hin Hr Hs1|s cls msg Hw Hs Hin Hr|s Hw Hs Hin Hr];
    try (split; [exact Hm|];
         rewrite (since_app st st []) by (now rewrite app_nil_r);
         apply attempted_quiet, quiet_nil).
  - split.
    + simpl. apply (has_insert_add _ _ _ _ _ _ Hs1). left. now apply kept.
    + erewrite since_app by reflexivity.
      apply (Hnew _ [] s); [apply quiet_nil|exact Hs|exact Hin].
  - split; [simpl; now do 2 apply kept|].
    erewrite since_app by reflexivity. now apply (Hnew _ _ s).
  - split; [simpl; now do 2 apply kept|].
    erewrite since_app by reflexivity. now apply (Hnew _ _ s).
  - split; [simpl; now apply kept|].
    erewrite since_app by reflexivity.
    apply (Hnew _ [] s); [apply quiet_nil|exact Hs|exact Hin].
Qed.

(** The loop over the recipients makes no send for a pair that is
    recorded when it begins and that the other tasks leave in place. *)
Lemma loop_marked w now users events st0 :
  marked st0 ->
  ~ attempted
      (since st0
         (notify_users NOTIFICATION_TIME cancelled others w now users events
            st0).2) u id.
Proof.
  intros Hm.
  assert (marked st0 /\ ~ attempted (since st0 st0) u id) as H0.
  { split; [exact Hm|].
    rewrite (since_app st0 st0 []) by now rewrite app_nil_r.
    apply attempted_quiet, quiet_nil. }
  assert (forall {A} (m : M A) st,
            orderly m ->
            journal st = journal st0 ++ since st0 st ->
            (marked st -> marked (m st).2 /\ ~ attempted (since st (m st).2) u id) ->
            marked st /\ ~ attempted (since st0 st) u id ->
            journal (m st).2 = journal st0 ++ since st0 (m st).2 /\
            marked (m st).2 /\ ~ attempted (since st0 (m st).2) u id) as Hstep.
  { intros A m st Ho Hj Hm1 [Hm0 Hna].
    destruct (orderly_since m st Ho) as [Hj1 _].
    destruct (Hm1 Hm0) as [Hm2 Hna2].
    assert (since st0 (m st).2 = since st0 st ++ since st (m st).2) as Hs.
    { apply since_app. rewrite Hj1, Hj at 1. now rewrite <- app_assoc. }
    split; [|split; [exact Hm2|]].
    - rewrite Hs, app_assoc, <- Hj. exact Hj1.
    - rewrite Hs, attempted_app. tauto. }
  enough (journal
            (notify_users NOTIFICATION_TIME cancelled others w now users events
               st0).2 =
          journal st0 ++
          since st0
            (notify_users NOTIFICATION_TIME cancelled others w now users events
               st0).2 /\
          marked
            (notify_users NOTIFICATION_TIME cancelled others w now users events
               st0).2 /\
          ~ attempted
              (since st0
                 (notify_users NOTIFICATION_TIME cancelled others w now users
                    events st0).2) u id) as (_ & _ & H) by exact H.
  apply (for_each_inv
           (fun st => journal st = journal st0 ++ since st0 st /\
                      marked st /\ ~ attempted (since st0 st) u id)).
  2:{ split; [|exact H0].
      rewrite (since_app st0 st0 []) by now rewrite app_nil_r.
      now rewrite app_nil_r. }
  intros user st Hu (Hj & HI).
  unfold notify_user. rewrite bind_unfold.
  assert (journal (ensure_set (user_id user) st).2 = journal st /\
          marked (ensure_set (user_id user) st).2) as [Hsame Hm1].
  { unfold ensure_set.
    destruct (notified_events st !! user_id user) as [s|] eqn:Hs; simpl;
      [now split|]. split; [reflexivity|].
    apply (has_insert_empty _ _ _ _ Hs). apply HI. }
  destruct (ensure_set (user_id user) st) as [[[]|e] st1]; simpl in *.
  2:{ unfold since in *. rewrite Hsame. split; [exact Hj|].
      split; [exact Hm1|apply HI]. }
  apply (for_each_inv
           (fun st2 => journal st2 = journal st0 ++ since st0 st2 /\
                       marked st2 /\ ~ attempted (since st0 st2) u id)).
  - intros ev st2 Hev (Hj2 & HI2).
    apply Hstep; [apply orderly_notify|exact Hj2| |exact HI2].
    apply notify_marked.
  - unfold since in *. rewrite Hsame. split; [exact Hj|].
    split; [exact Hm1|apply HI].
Qed.

(** A tick makes no send for a pair that is recorded when it begins and
    that the other tasks leave in place. *)
Lemma tick_marked w st :
  marked st ->
  ~ attempted
      (since st (tick CHECK_INTERVAL NOTIFICATION_TIME cancelled others w st).2)
      u id.
Proof.
  intros Hm.
  destruct (tick_sends CHECK_INTERVAL NOTIFICATION_TIME cancelled others w st)
    as [Hq|(users & events & tail & Hd & _ & _ & Hq & ->)].
  - now apply attempted_quiet.
  - rewrite (attempted_app_quiet _ _ _ _ Hq).
    apply loop_marked. simpl. now do 2 apply kept.
Qed.

End Marked.

(** * The claims *)

(** ** What is sent in a tick *)

Lemma noon_tick_delivers :
  tick_delivers (world_of noon noon_events) [alice; bob] noon_events.
Proof.
  eexists _, _, _. split; [reflexivity|]. split.
  - eexists _, _. repeat split; reflexivity.
  - split; [reflexivity|]. split; reflexivity.
Qed.

Lemma two_due_tick_delivers :
  tick_delivers (world_of noon [soon; also]) [alice; bob] [soon; also].
Proof.
  eexists _, _, _. split; [reflexivity|]. split.
  - eexists _, _. repeat split; reflexivity.
  - split; [reflexivity|]. split; reflexivity.
Qed.

Lemma soon_within_lead : within_lead 15 noon soon.
Proof.
  eexists. split; [reflexivity|]. split; vm_compute; discriminate.
Qed.

Lemma has_marked : has (notified_events st_marked) 2 soon_id.
Proof.
  exists {[ soon_id ]}. split; [apply lookup_singleton_eq|].
  now apply elem_of_singleton.
Qed.

(** C1, as the code has it.  The test of line 670 is made on the dict as
    it is at that moment: when the loop comes to a recipient and an
    occurrence, it makes a send, and no other, exactly when the occurrence
    starts between 0 and [NOTIFICATION_TIME] minutes from [now] and its
    identity is not in the set that the recipient has then, whatever the
    other task has done to the dict before.

    In a tick that is not cancelled, that has its calendar, and during
    which no other task touches the dict, a send is made for the identity
    [id] to the recipient [u] if and only if [u] is subscribed, an
    occurrence of the window with that identity is due, and the identity
    is not recorded for [u] when the tick begins.  The minutes are counted
    between the two instants; with a lead time of 15 minutes, an occurrence
    5 minutes ahead is due, and occurrences 10 minutes back, 20 minutes
    ahead or 90 minutes ahead are not.

    With the second [check_upcoming_events] that the bot starts, neither
    direction holds of a tick.  When the other task clears the dict while
    this one waits for its download, a pair that is recorded when the tick
    begins is sent again.  When it clears the dict while this one pauses
    after a failed send, the next test raises [KeyError], the tick ends
    there, and the second recipient, subscribed and with a due occurrence
    that is not recorded, is sent nothing. *)
Theorem attempted_iff_due_and_unrecorded :
  (forall NOTIFICATION_TIME cancelled others w now u ev st,
     (exists r tail,
        journal (notify NOTIFICATION_TIME cancelled others w now u ev st).2
        = journal st ++ Delivery u ev r :: tail /\ quiet tail) <->
     within_lead NOTIFICATION_TIME now ev /\
     exists s, notified_events st !! u = Some s /\ event_id_of ev ∉ s) /\
  (forall CHECK_INTERVAL NOTIFICATION_TIME cancelled w users events st,
     (forall k, cancelled k = false) ->
     DT.aware (w_now w) ->
     tick_delivers w users events ->
     let now := w_now w in
     let st' :=
       (tick CHECK_INTERVAL NOTIFICATION_TIME cancelled nobody w st).2 in
     (forall u id,
        attempted (since st st') u id <->
        In u (map user_id users) /\
        (exists ev, In ev events /\ event_id_of ev = id /\
                    within_lead NOTIFICATION_TIME now ev) /\
        ~ has (notified_events st) u id) /\
     (forall ev, In ev events ->
        let d := DT.instant (start ev) - DT.instant now in
        (within_lead NOTIFICATION_TIME now ev <->
         0 <= d <= minutes NOTIFICATION_TIME) /\
        (NOTIFICATION_TIME = 15 ->
         (d = minutes 5 -> within_lead NOTIFICATION_TIME now ev) /\
         (d = minutes (-10) \/ d = minutes 20 \/ d = minutes 90 ->
          ~ within_lead NOTIFICATION_TIME now ev)))) /\
  (let w := world_of noon [soon; also] in
   let st1 := (tick 300 15 never_cancelled (clears_at 0) w st_marked).2 in
   let st2 := (tick 300 15 never_cancelled (clears_at 3) w st_empty).2 in
   tick_delivers w [alice; bob] [soon; also] /\
   within_lead 15 noon soon /\
   (has (notified_events st_marked) 2 (event_id_of soon) /\
    attempted (since st_marked st1) 2 (event_id_of soon)) /\
   (~ has (notified_events st_empty) 2 (event_id_of soon) /\
    ~ attempted (since st_empty st2) 2 (event_id_of soon)) /\
   journal st2 =
   [Delivery 1 soon
      (Raise (Exception "TelegramForbiddenError" "bot was blocked by the user"));
    LogError "Ошибка при отправке уведомления пользователю 1: bot was blocked by the user";
    Sleep 1;
    LogError "Ошибка при проверке событий: 1";
    DbClose; Sleep 300]).
Proof.
  split; [|split].
  - intros. apply notify_sends_iff.
  - intros CHECK_INTERVAL NOTIFICATION_TIME cancelled w users events st
      Hnc Hnow Hd now st'. split.
    + intros u id. split.
      * intros Hatt.
        apply tick_attempts_sound in Hatt
          as (users' & events' & Hd' & Hu & Hev & Hnot).
        destruct (tick_delivers_unique _ _ _ _ _ Hd Hd') as [<- <-].
        now split.
      * intros (Hu & Hev & Hnot).
        now apply (tick_attempts_complete CHECK_INTERVAL NOTIFICATION_TIME
                     cancelled Hnc w st users events).
    + intros ev Hev d.
      pose proof (within_lead_instants NOTIFICATION_TIME now ev Hnow
                    (tick_delivers_aware w users events Hd ev Hev)) as Hiff.
      fold d in Hiff. split; [exact Hiff|].
      intros ->. unfold minutes in *. split.
      * intros Hd5. apply Hiff. lia.
      * intros Hdx Hw. apply Hiff in Hw. lia.
  - intros w st1 st2.
    assert (journal st2 =
      [Delivery 1 soon
         (Raise (Exception "TelegramForbiddenError" "bot was blocked by the user"));
       LogError "Ошибка при отправке уведомления пользователю 1: bot was blocked by the user";
       Sleep 1;
       LogError "Ошибка при проверке событий: 1";
       DbClose; Sleep 300]) as Hj2 by (vm_compute; reflexivity).
    assert (journal st1 =
      [Delivery 1 soon
         (Raise (Exception "TelegramForbiddenError" "bot was blocked by the user"));
       LogError "Ошибка при отправке уведомления пользователю 1: bot was blocked by the user";
       Sleep 1;
       Delivery 1 also
         (Raise (Exception "TelegramForbiddenError" "bot was blocked by the user"));
       LogError "Ошибка при отправке уведомления пользователю 1: bot was blocked by the user";
       Sleep 1;
       Delivery 2 soon (Ok tt); Delivery 2 also (Ok tt);
       DbClose; Sleep 300]) as Hj1 by (vm_compute; reflexivity).
    split; [exact two_due_tick_delivers|]. split; [exact soon_within_lead|].
    split; [|split; [|exact Hj2]].
    + split; [exact has_marked|].
      exists soon, (Ok tt). split; [|reflexivity].
      unfold since. rewrite Hj1. simpl. tauto.
    + split; [apply has_empty|].
      intros (ev & r & Hin & _). unfold since in Hin. rewrite Hj2 in Hin.
      simpl in Hin. intuition discriminate.
Qed.

Lemma attempted_iff_due_and_unrecorded_witness :
  (forall k, never_cancelled k = false) /\
  DT.aware (w_now (world_of noon noon_events)) /\
  tick_delivers (world_of noon noon_events) [alice; bob] noon_events /\
  let st' := (tick 300 15 never_cancelled nobody (world_of noon noon_events)
                st_empty).2 in
  attempted (since st_empty st') 2 "Soon_2024-05-06T12:05:00+03:00" /\
  ~ attempted (since st_empty st') 2 "Past_2024-05-06T11:50:00+03:00" /\
  ~ attempted (since st_empty st') 2 "Later_2024-05-06T12:20:00+03:00" /\
  ~ attempted (since st_empty st') 2 "Far_2024-05-06T13:30:00+03:00".
Proof.
  assert (forall k, never_cancelled k = false) as H1 by reflexivity.
  assert (DT.aware (w_now (world_of noon noon_events))) as H2
    by (eexists; reflexivity).
  split; [exact H1|]. split; [exact H2|]. split; [exact noon_tick_delivers|].
  destruct attempted_iff_due_and_unrecorded as (_ & Htick & _).
  destruct (Htick 300 15 never_cancelled
              (world_of noon noon_events) [alice; bob] noon_events
              st_empty H1 H2 noon_tick_delivers) as [Hiff Hlead].
  assert (forall ev id, In ev noon_events -> event_id_of ev = id ->
            within_lead 15 noon ev -> DT.instant (start ev) - DT.instant noon
            = minutes 5) as Honly.
  { intros ev id Hev _ Hw.
    destruct (Hlead ev Hev) as [_ Hinst]. specialize (Hinst eq_refl).
    destruct Hev as [<-|[<-|[<-|[<-|[]]]]]; [exfalso|reflexivity|exfalso..];
      apply (proj2 Hinst); try exact Hw; vm_compute; auto. }
  intros st'. repeat split.
  - apply Hiff. split; [right; now left|]. split.
    + exists (occurrence "Soon" 12 5). split; [right; now left|].
      split; [reflexivity|].
      apply (proj1 (proj2 (Hlead _ (or_intror (or_introl eq_refl))) eq_refl)).
      reflexivity.
    + apply has_empty.
  - intros Hatt. apply Hiff in Hatt as (_ & (ev & Hev & Hid & Hw) & _).
    pose proof (Honly ev _ Hev Hid Hw) as Hd.
    destruct Hev as [<-|[<-|[<-|[<-|[]]]]]; discriminate.
  - intros Hatt. apply Hiff in Hatt as (_ & (ev & Hev & Hid & Hw) & _).
    pose proof (Honly ev _ Hev Hid Hw) as Hd.
    destruct Hev as [<-|[<-|[<-|[<-|[]]]]]; discriminate.
  - intros Hatt. apply Hiff in Hatt as (_ & (ev & Hev & Hid & Hw) & _).
    pose proof (Honly ev _ Hev Hid Hw) as Hd.
    destruct Hev as [<-|[<-|[<-|[<-|[]]]]]; discriminate.
Defined.

Example noon_tick_journal :
  journal (tick 300 15 never_cancelled nobody (world_of noon noon_events)
             st_empty).2
  = [Delivery 1 soon
       (Raise (Exception "TelegramForbiddenError" "bot was blocked by the user"));
     LogError "Ошибка при отправке уведомления пользователю 1: bot was blocked by the user";
     Sleep 1;
     Delivery 2 soon (Ok tt);
     DbClose; Sleep 300].
Proof. vm_compute. reflexivity. Qed.

(** ** What is recorded in a tick *)

(** C2, as the code has it.  When a send is made, the task is suspended
    until the send has ended, and it goes on with the dict as the other
    task has left it.  If the send returned and the recipient still has a
    set, the pair is recorded at once; if the send raised an [Exception],
    the error is logged, the task sleeps for one second, and it has
    written nothing to the dict.

    In a tick that has its calendar and during which no other task touches
    the dict, a pair of a recipient and an occurrence identity is recorded
    when the loop over the recipients ends if and only if it was recorded
    when the tick began or a send for it returned without raising in this
    tick.  Every send that raised an [Exception] is followed at once by the
    error in the log and a sleep of one second, after which the loop goes
    on.  A pair that was not recorded and for which no send returned is not
    recorded when the tick ends, and the next tick in which it is due sends
    it again.

    With the second [check_upcoming_events] that the bot starts, a send
    that returned may leave its pair unrecorded: when the other task
    clears the dict during the send, [add] raises [KeyError], which is
    logged as a failed delivery. *)
Theorem recorded_iff_send_returned :
  (forall NOTIFICATION_TIME cancelled others w now u ev st s,
     within_lead NOTIFICATION_TIME now ev ->
     notified_events st !! u = Some s -> event_id_of ev ∉ s ->
     let k := awaited st in
     let d := others k (notified_events st) in
     let st' := (notify NOTIFICATION_TIME cancelled others w now u ev st).2 in
     (forall s1,
        send_result cancelled w k u ev = Ok tt -> d !! u = Some s1 ->
        has (notified_events st') u (event_id_of ev) /\
        journal st' = journal st ++ [Delivery u ev (Ok tt)]) /\
     (send_result cancelled w k u ev = Ok tt -> d !! u = None ->
        notified_events st' = others (S k) d /\
        journal st' =
        journal st ++
          [Delivery u ev (Ok tt);
           LogError (delivery_error u (Exception "KeyError" (PyStr.of_int u)));
           Sleep 1]) /\
     (forall cls msg,
        send_result cancelled w k u ev = Raise (Exception cls msg) ->
        notified_events st' = others (S k) d /\
        journal st' =
        journal st ++
          [Delivery u ev (Raise (Exception cls msg));
           LogError (delivery_error u (Exception cls msg)); Sleep 1])) /\
  (forall CHECK_INTERVAL NOTIFICATION_TIME cancelled w users events st,
     tick_delivers w users events ->
     cancelled (awaited st) = false -> cancelled (S (awaited st)) = false ->
     let loop_end :=
       (notify_users NOTIFICATION_TIME cancelled nobody w (w_now w) users
          events (after_fetch nobody st)).2 in
     let st' :=
       (tick CHECK_INTERVAL NOTIFICATION_TIME cancelled nobody w st).2 in
     let seg := since st st' in
     (forall u id, has (notified_events loop_end) u id <->
                   has (notified_events st) u id \/ delivered seg u id) /\
     failures_followed seg /\
     (forall u id,
        ~ has (notified_events st) u id -> ~ delivered seg u id ->
        ~ has (notified_events st') u id /\
        forall w' users' events',
          (forall k, cancelled k = false) ->
          DT.aware (w_now w') ->
          tick_delivers w' users' events' ->
          In u (map user_id users') ->
          (exists ev, In ev events' /\ event_id_of ev = id /\
                      within_lead NOTIFICATION_TIME (w_now w') ev) ->
          attempted
            (since st'
               (tick CHECK_INTERVAL NOTIFICATION_TIME cancelled nobody w'
                  st').2)
            u id)) /\
  (let w := world_of noon noon_events in
   let loop_end :=
     (notify_users 15 never_cancelled (clears_at 4) w noon [alice; bob]
        noon_events (after_fetch (clears_at 4) st_empty)).2 in
   let st' := (tick 300 15 never_cancelled (clears_at 4) w st_empty).2 in
   journal st' =
   [Delivery 1 soon
      (Raise (Exception "TelegramForbiddenError" "bot was blocked by the user"));
    LogError "Ошибка при отправке уведомления пользователю 1: bot was blocked by the user";
    Sleep 1;
    Delivery 2 soon (Ok tt);
    LogError "Ошибка при отправке уведомления пользователю 2: 2";
    Sleep 1;
    DbClose; Sleep 300] /\
   delivered (since st_empty st') 2 (event_id_of soon) /\
   ~ has (notified_events loop_end) 2 (event_id_of soon) /\
   ~ has (notified_events st') 2 (event_id_of soon)).
Proof.
  split; [|split].
  - intros NOTIFICATION_TIME cancelled others w now u ev st s Hw Hs Hin k d st'.
    destruct (notify_records NOTIFICATION_TIME cancelled others w now u ev st s
                Hw Hs Hin) as (H1 & H2 & H3).
    split; [|split; [exact H2|exact H3]].
    intros s1 Hok Hs1. destruct (H1 s1 Hok Hs1) as [Hne Hj].
    split; [|exact Hj]. fold k d st' in Hne. rewrite Hne.
    exists ({[event_id_of ev]} ∪ s1). rewrite lookup_insert_eq.
    split; [done|]. apply elem_of_union. left. now apply elem_of_singleton.
  - intros CHECK_INTERVAL NOTIFICATION_TIME cancelled w users events st
      Hd Hc0 Hc1 loop_end st' seg.
    destruct (tick_delivering_journal CHECK_INTERVAL NOTIFICATION_TIME
                cancelled nobody w st users events Hd Hc0 Hc1)
      as (tail & Hq & Hj).
    fold st' in Hj. fold seg in Hj.
    assert (forall u id, has (notified_events loop_end) u id <->
              has (notified_events st) u id \/ delivered seg u id) as Hrec.
    { intros u id. rewrite Hj, (delivered_app_quiet _ _ _ _ Hq).
      apply (loop_records NOTIFICATION_TIME cancelled w (w_now w) users events
               (after_fetch nobody st)). }
    split; [exact Hrec|]. split.
    + apply (orderly_since _ st
               (orderly_tick CHECK_INTERVAL NOTIFICATION_TIME cancelled nobody
                  w)).
    + intros u id Hnot Hnd.
      assert (~ has (notified_events st') u id) as Hnot'.
      { intros H.
        apply (tick_store_from_loop CHECK_INTERVAL NOTIFICATION_TIME cancelled
                 w st users events u id Hd Hc0 Hc1) in H.
        apply Hrec in H as [H|H]; contradiction. }
      split; [exact Hnot'|].
      intros w' users' events' Hnc Hnow Hd' Hu Hev.
      now apply (tick_attempts_complete CHECK_INTERVAL NOTIFICATION_TIME
                   cancelled Hnc w' st' users' events').
  - intros w loop_end st'.
    assert (journal st' =
      [Delivery 1 soon
         (Raise (Exception "TelegramForbiddenError" "bot was blocked by the user"));
       LogError "Ошибка при отправке уведомления пользователю 1: bot was blocked by the user";
       Sleep 1;
       Delivery 2 soon (Ok tt);
       LogError "Ошибка при отправке уведомления пользователю 2: 2";
       Sleep 1;
       DbClose; Sleep 300]) as Hj by (vm_compute; reflexivity).
    split; [exact Hj|]. split; [|split].
    + exists soon. split; [|reflexivity].
      unfold since. rewrite Hj. simpl. tauto.
    + intros H. apply hasb_spec in H. vm_compute in H. discriminate.
    + intros H. apply hasb_spec in H. vm_compute in H. discriminate.
Qed.

Lemma recorded_iff_send_returned_witness :
  tick_delivers (world_of noon noon_events) [alice; bob] noon_events /\
  never_cancelled (awaited st_empty) = false /\
  never_cancelled (S (awaited st_empty)) = false /\
  let loop_end :=
    (notify_users 15 never_cancelled nobody (world_of noon noon_events) noon
       [alice; bob] noon_events (after_fetch nobody st_empty)).2 in
  let st' := (tick 300 15 never_cancelled nobody (world_of noon noon_events)
                st_empty).2 in
  has (notified_events loop_end) 2 soon_id /\
  ~ has (notified_events st') 1 soon_id /\
  attempted
    (since st'
       (tick 300 15 never_cancelled nobody (world_of noon noon_events) st').2)
    1 soon_id.
Proof.
  split; [exact noon_tick_delivers|]. split; [reflexivity|].
  split; [reflexivity|]. intros loop_end st'.
  destruct recorded_iff_send_returned as (_ & Htick & _).
  destruct (Htick 300 15 never_cancelled
              (world_of noon noon_events) [alice; bob] noon_events st_empty
              noon_tick_delivers eq_refl eq_refl) as (Hrec & _ & Hretry).
  fold st' in Hrec, Hretry.
  split.
  - apply Hrec. right. exists soon. split; [|reflexivity].
    unfold st', since. rewrite noon_tick_journal. simpl. auto.
  - assert (~ delivered (since st_empty st') 1 soon_id) as Hnd.
    { unfold st', since. rewrite noon_tick_journal.
      intros (ev & [H|[H|[H|[H|[H|[H|[]]]]]]] & _); discriminate. }
    destruct (Hretry 1 soon_id (has_empty _ _) Hnd) as [Hnot Hagain].
    split; [exact Hnot|].
    apply (Hagain (world_of noon noon_events) [alice; bob] noon_events).
    + reflexivity.
    + eexists; reflexivity.
    + exact noon_tick_delivers.
    + simpl. auto.
    + exists soon. split; [simpl; auto|]. split; [reflexivity|].
      exact soon_within_lead.
Defined.

(** ** Forgetting old notifications *)

(** C3, as the code has it.  At noon of the 6th of May the pruning keeps
    an entry of the 3rd, three days old, and an entry of the 5th, 26 hours
    old, whose summary holds an underscore; half an hour after midnight it
    removes the entry of an occurrence that starts ten minutes later. *)
Theorem prune_keeps_old_and_drops_fresh :
  (DT.instant noon - DT.instant (start standup_friday) > minutes (24 * 60) /\
   DT.instant noon - DT.instant (start team_sync_sunday) > minutes (24 * 60) /\
   (prune noon st_old).1 = Ok tt /\
   has (notified_events (prune noon st_old).2) 2 (event_id_of standup_friday) /\
   has (notified_events (prune noon st_old).2) 2 (event_id_of team_sync_sunday)) /\
  (DT.instant (start standup_tonight) - DT.instant half_past_midnight
   = minutes 10 /\
   has (notified_events st_tonight) 2 (event_id_of standup_tonight) /\
   (prune half_past_midnight st_tonight).1 = Ok tt /\
   ~ has (notified_events (prune half_past_midnight st_tonight).2) 2
       (event_id_of standup_tonight)).
Proof.
  split.
  - split; [reflexivity|]. split; [reflexivity|].
    split; [vm_compute; reflexivity|].
    split; apply hasb_spec; vm_compute; reflexivity.
  - split; [reflexivity|].
    split; [apply hasb_spec; vm_compute; reflexivity|].
    split; [vm_compute; reflexivity|].
    intros H. apply hasb_spec in H. vm_compute in H. discriminate.
Qed.

(** The same in the loop, from an empty dict.  The entry with an
    underscore in its summary, recorded by the turn of the 5th, is there at
    noon of the 6th; so is the entry of the 3rd when the loop turns every
    two days. *)
Example underscore_entry_kept :
  let ws := [world_of (DT.mk 2024 5 5 9 50 0 0 (Some 10800)) [team_sync_sunday];
             world_of noon []] in
  hasb (notified_events
          (check_upcoming_events 300 15 never_cancelled nobody ws st_empty).2)
       2 (event_id_of team_sync_sunday) = true.
Proof. vm_compute. reflexivity. Qed.

Example old_entry_kept :
  let ws := [world_of (DT.mk 2024 5 3 9 50 0 0 (Some 10800)) [standup_friday];
             world_of (DT.mk 2024 5 5 9 50 0 0 (Some 10800)) [];
             world_of (DT.mk 2024 5 7 9 50 0 0 (Some 10800)) []] in
  hasb (notified_events
          (check_upcoming_events 172800 15 never_cancelled nobody ws st_empty).2)
       2 (event_id_of standup_friday) = true.
Proof. vm_compute. reflexivity. Qed.

(** And the reminder of the occurrence given in UTC goes out again in the
    next turn. *)
Example reminder_sent_twice :
  let ws := [world_of half_past_midnight [standup_tonight];
             world_of (DT.mk 2024 5 7 0 35 0 0 (Some 10800)) [standup_tonight]] in
  List.filter (fun e => match e with Delivery 2 _ _ => true | _ => false end)
    (journal (check_upcoming_events 300 15 never_cancelled nobody ws st_empty).2)
  = [Delivery 2 standup_tonight (Ok tt); Delivery 2 standup_tonight (Ok tt)].
Proof. vm_compute. reflexivity. Qed.

(** ** When the calendar cannot be had *)

(** C4.  In a tick in which no calendar is configured, or the calendar
    configured cannot be fetched (the download fails, the status is not
    200, or the body cannot be read or parsed), the tick comes to its sleep
    of the configured interval with its entry in the log and the whole dict
    of sent notifications empty, whatever the dict held when the tick began
    and whatever the other task did to it during the download: [asleep] is
    the state in which the sleep begins, and the rest of the tick is that
    sleep and the closing of the session.  When the tick is over the dict
    holds what the other task has put into the empty dict during the
    sleep, and nothing else. *)
Theorem dict_cleared_when_calendar_unavailable
    (CHECK_INTERVAL NOTIFICATION_TIME : Z) (cancelled : nat -> bool)
    (others : nat -> gmap Z (gset string) -> gmap Z (gset string))
    (w : world) (st : state) :
  calendar_unavailable cancelled w st ->
  exists st0 pre,
    let asleep := cleared (unavailable_entry w) st0 in
    let st' := (tick CHECK_INTERVAL NOTIFICATION_TIME cancelled others w st).2 in
    journal asleep = journal st ++ pre ++ [unavailable_entry w] /\
    notified_events asleep = ∅ /\
    (forall u id, ~ has (notified_events asleep) u id) /\
    tick CHECK_INTERVAL NOTIFICATION_TIME cancelled others w st
    = try_finally (asyncio_sleep cancelled others CHECK_INTERVAL) (db_close w)
        asleep /\
    since st st' = pre ++ [unavailable_entry w; Sleep CHECK_INTERVAL; DbClose] /\
    notified_events st' = others (awaited asleep) ∅.
Proof.
  intros H.
  destruct (tick_unavailable CHECK_INTERVAL NOTIFICATION_TIME cancelled others
              w st H) as (st0 & pre & Hj & Ht).
  exists st0, pre. intros asleep st'.
  split; [simpl; now rewrite Hj, <- app_assoc|]. split; [reflexivity|].
  split; [intros u id; apply has_empty|]. split; [exact Ht|].
  unfold st'. rewrite Ht.
  destruct (sleep_then_close CHECK_INTERVAL cancelled others w asleep)
    as [Hj' Hne].
  split; [|exact Hne].
  apply since_app. etransitivity; [exact Hj'|].
  simpl. now rewrite Hj, <- !app_assoc.
Qed.

Lemma dict_cleared_when_calendar_unavailable_witness :
  calendar_unavailable never_cancelled (world_down noon) st_marked /\
  has (notified_events st_marked) 2 soon_id /\
  exists st0 pre,
    let asleep := cleared (unavailable_entry (world_down noon)) st0 in
    let st' := (tick 300 15 never_cancelled nobody (world_down noon)
                  st_marked).2 in
    journal asleep =
    journal st_marked ++ pre ++ [unavailable_entry (world_down noon)] /\
    notified_events asleep = ∅ /\
    (forall u id, ~ has (notified_events asleep) u id) /\
    tick 300 15 never_cancelled nobody (world_down noon) st_marked
    = try_finally (asyncio_sleep never_cancelled nobody 300)
        (db_close (world_down noon)) asleep /\
    since st_marked st' =
    pre ++ [unavailable_entry (world_down noon); Sleep 300; DbClose] /\
    notified_events st' = nobody (awaited asleep) ∅.
Proof.
  assert (calendar_unavailable never_cancelled (world_down noon) st_marked)
    as H.
  { right. eexists. split; [reflexivity|]. split; [reflexivity|].
    left. discriminate. }
  split; [exact H|]. split; [exact has_marked|].
  exact (dict_cleared_when_calendar_unavailable 300 15 never_cancelled nobody
           (world_down noon) st_marked H).
Defined.

(** ** Marks *)

(** C5.  Marking a pair twice leaves the scheduler exactly where marking it
    once does, so that every later query gives the same answer, and for a
    recipient who has a set the pair is then recorded.  No send is made
    for a pair that is recorded when the test of line 670 is made for it;
    and in a tick that begins while a pair is recorded, whatever the tick
    finds, no send is made for that pair as long as the other task leaves
    the mark where it is. *)
Theorem mark_twice_and_no_second_send
    (CHECK_INTERVAL NOTIFICATION_TIME : Z) (cancelled : nat -> bool)
    (others : nat -> gmap Z (gset string) -> gmap Z (gset string)) :
  (forall u id st, (mark u id;; mark u id) st = mark u id st) /\
  (forall u id st u' id',
     has (notified_events ((mark u id;; mark u id) st).2) u' id' <->
     has (notified_events (mark u id st).2) u' id') /\
  (forall u id st, is_Some (notified_events st !! u) ->
     has (notified_events (mark u id st).2) u id) /\
  (forall w now u ev st,
     has (notified_events st) u (event_id_of ev) ->
     journal (notify NOTIFICATION_TIME cancelled others w now u ev st).2
     = journal st) /\
  (forall w st u id,
     (forall k d, has d u id -> has (others k d) u id) ->
     has (notified_events st) u id ->
     ~ attempted
         (since st
            (tick CHECK_INTERVAL NOTIFICATION_TIME cancelled others w st).2)
         u id).
Proof.
  assert (forall u id st, (mark u id;; mark u id) st = mark u id st) as Hidem.
  { intros u id st. unfold mark, getitem, setitem.
    repeat (rewrite bind_unfold; simpl).
    destruct (notified_events st !! u) as [s|] eqn:Hs; simpl; [|reflexivity].
    rewrite bind_unfold. simpl. rewrite lookup_insert_eq. simpl.
    unfold set_notified. simpl. rewrite insert_insert_eq.
    do 3 f_equal. now rewrite (assoc_L (∪)), union_idemp_L. }
  split; [exact Hidem|]. split; [|split; [|split]].
  - intros u id st u' id'. now rewrite Hidem.
  - intros u id st [s Hs]. unfold mark, getitem, setitem.
    rewrite bind_unfold. rewrite Hs. simpl.
    exists ({[id]} ∪ s). rewrite lookup_insert_eq. split; [done|].
    apply elem_of_union. left. now apply elem_of_singleton.
  - intros w now u ev st. apply notify_known_quiet.
  - intros w st u id Hkept Hhas. now apply tick_marked.
Qed.

Lemma mark_twice_and_no_second_send_witness :
  (forall k d, has d 2 soon_id -> has (nobody k d) 2 soon_id) /\
  has (notified_events st_marked) 2 soon_id /\
  ~ attempted
      (since st_marked
         (tick 300 15 never_cancelled nobody (world_of noon noon_events)
            st_marked).2)
      2 soon_id.
Proof.
  assert (forall k d, has d 2 soon_id -> has (nobody k d) 2 soon_id) as Hkept
    by (intros k d H; exact H).
  split; [exact Hkept|]. split; [exact has_marked|].
  destruct (mark_twice_and_no_second_send 300 15 never_cancelled nobody)
    as (_ & _ & _ & _ & Hsuppress).
  exact (Hsuppress (world_of noon noon_events) st_marked 2 soon_id Hkept
           has_marked).
Defined.

(** ** One recipient and the others *)

(** C6, as the code has it.  The exception of a send does not leave
    [notify]: when [notify] raises an exception, it is the test of line
    667 or 670 that raised it, no send has been made and nothing is
    changed.

    In a tick that is not cancelled, that has its calendar, whose session
    is closed without an exception, and during which no other task touches
    the dict, a subscribed recipient [b] whose sends go through gets every
    occurrence that is due and not yet recorded for them, whatever happens
    to the sends for the other recipients: a send that raises for one
    recipient does not stop the loop, and the tick runs to its end.

    With the second [check_upcoming_events] that the bot starts, this does
    not hold of a tick: when the other task clears the dict while this one
    pauses after the failed send to the first recipient, the next test for
    that recipient raises [KeyError], the tick ends there, and the second
    recipient, whose sends would go through, is sent nothing. *)
Theorem failure_does_not_block_others :
  (forall NOTIFICATION_TIME cancelled others w now u ev st cls msg,
     (notify NOTIFICATION_TIME cancelled others w now u ev st).1
     = Raise (Exception cls msg) ->
     (notify NOTIFICATION_TIME cancelled others w now u ev st).2 = st /\
     (time_diff (start ev) now = Raise (Exception cls msg) \/
      notified_events st !! u = None)) /\
  (forall CHECK_INTERVAL NOTIFICATION_TIME cancelled w users events st b ev,
     (forall k, cancelled k = false) ->
     DT.aware (w_now w) ->
     tick_delivers w users events ->
     w_db_close w = Returns tt ->
     (forall k text, w_send_message w k (user_id b) text = Returns tt) ->
     In b users -> In ev events ->
     within_lead NOTIFICATION_TIME (w_now w) ev ->
     ~ has (notified_events st) (user_id b) (event_id_of ev) ->
     let r := tick CHECK_INTERVAL NOTIFICATION_TIME cancelled nobody w st in
     r.1 = Ok tt /\
     delivered (since st r.2) (user_id b) (event_id_of ev)) /\
  (let w := world_of noon [soon; also] in
   let r := tick 300 15 never_cancelled (clears_at 3) w st_empty in
   tick_delivers w [alice; bob] [soon; also] /\
   w_db_close w = Returns tt /\
   (forall k text, w_send_message w k (user_id bob) text = Returns tt) /\
   In bob [alice; bob] /\ In soon [soon; also] /\
   within_lead 15 (w_now w) soon /\
   ~ has (notified_events st_empty) (user_id bob) (event_id_of soon) /\
   r.1 = Ok tt /\
   (forall ev res, ~ In (Delivery (user_id bob) ev res) (since st_empty r.2)) /\
   since st_empty r.2 =
   [Delivery 1 soon
      (Raise (Exception "TelegramForbiddenError" "bot was blocked by the user"));
    LogError "Ошибка при отправке уведомления пользователю 1: bot was blocked by the user";
    Sleep 1;
    LogError "Ошибка при проверке событий: 1";
    DbClose; Sleep 300]).
Proof.
  split; [|split].
  - intros. now apply notify_raises.
  - intros CHECK_INTERVAL NOTIFICATION_TIME cancelled w users events st b ev
      Hnc Hnow Hd Hclose Hsend Hb Hev Hw Hnot r.
    split; [now apply tick_returns|].
    destruct (tick_journal CHECK_INTERVAL NOTIFICATION_TIME cancelled Hnc
                w st users events Hd) as (tail & Hq & Hj).
    fold r in Hj. rewrite Hj. apply delivered_app_quiet; [exact Hq|].
    apply (loop_delivers NOTIFICATION_TIME cancelled w (w_now w) users events
             Hnc (after_fetch nobody st) b _ Hsend).
    apply loop_attempts_complete; try assumption.
    + now apply (tick_delivers_aware w users).
    + now apply in_map.
    + now exists ev.
  - intros w r.
    assert (since st_empty r.2 =
      [Delivery 1 soon
         (Raise (Exception "TelegramForbiddenError" "bot was blocked by the user"));
       LogError "Ошибка при отправке уведомления пользователю 1: bot was blocked by the user";
       Sleep 1;
       LogError "Ошибка при проверке событий: 1";
       DbClose; Sleep 300]) as Hj by (vm_compute; reflexivity).
    split; [exact two_due_tick_delivers|]. split; [reflexivity|].
    split; [reflexivity|]. split; [simpl; auto|]. split; [simpl; auto|].
    split; [exact soon_within_lead|]. split; [apply has_empty|].
    split; [vm_compute; reflexivity|]. split; [|exact Hj].
    intros ev res Hin. rewrite Hj in Hin. simpl in Hin.
    intuition discriminate.
Qed.

Lemma failure_does_not_block_others_witness :
  (forall k, never_cancelled k = false) /\
  DT.aware (w_now (world_of noon noon_events)) /\
  tick_delivers (world_of noon noon_events) [alice; bob] noon_events /\
  w_db_close (world_of noon noon_events) = Returns tt /\
  (forall k text,
     w_send_message (world_of noon noon_events) k (user_id bob) text
     = Returns tt) /\
  (forall k text,
     w_send_message (world_of noon noon_events) k (user_id alice) text
     = Fails "TelegramForbiddenError" "bot was blocked by the user") /\
  In bob [alice; bob] /\ In soon noon_events /\
  within_lead 15 (w_now (world_of noon noon_events)) soon /\
  ~ has (notified_events st_empty) (user_id bob) (event_id_of soon) /\
  let r := tick 300 15 never_cancelled nobody (world_of noon noon_events)
             st_empty in
  r.1 = Ok tt /\
  delivered (since st_empty r.2) (user_id bob) (event_id_of soon).
Proof.
  assert (forall k, never_cancelled k = false) as H1 by reflexivity.
  assert (DT.aware (w_now (world_of noon noon_events))) as H2
    by (eexists; reflexivity).
  assert (forall k text,
            w_send_message (world_of noon noon_events) k (user_id bob) text
            = Returns tt) as H3 by reflexivity.
  assert (In bob [alice; bob]) as H4 by (simpl; auto).
  assert (In soon noon_events) as H5 by (simpl; auto).
  assert (~ has (notified_events st_empty) (user_id bob) (event_id_of soon))
    as H6 by apply has_empty.
  do 10 (split; [first [assumption | exact noon_tick_delivers
                       | exact soon_within_lead | reflexivity]|]).
  destruct failure_does_not_block_others as (_ & Htick & _).
  exact (Htick 300 15 never_cancelled
           (world_of noon noon_events) [alice; bob] noon_events
           st_empty bob soon H1 H2 noon_tick_delivers eq_refl H3 H4 H5
           soon_within_lead H6).
Defined.

(** ** The loop *)

(** C7, as the code has it.  A turn of the loop is a tick: when the loop
    returns from its turns, it is in the state to which the ticks of its
    worlds lead one from the other.  The loop is left by the cancellation
    of its task, or by an exception that [db.close()] raises in the
    [finally] of a turn, and by nothing else.  An exception raised under
    the [try] of a turn is logged, after which the session is closed and,
    if that goes through, the turn sleeps; a calendar that cannot be had
    is logged and slept on.  With no cancellation, and with every session
    closed without an exception, the loop goes through every turn,
    whatever the worlds of the turns and whatever the other task does:
    every turn returns, holds the sleep of the configured interval, and
    has every send that raised followed by its log entry and its pause. *)
Theorem loop_survives_errors
    (CHECK_INTERVAL NOTIFICATION_TIME : Z) (cancelled : nat -> bool)
    (others : nat -> gmap Z (gset string) -> gmap Z (gset string)) :
  let run := check_upcoming_events CHECK_INTERVAL NOTIFICATION_TIME cancelled
               others in
  let tick := tick CHECK_INTERVAL NOTIFICATION_TIME cancelled others in
  (forall ws st,
     (run ws st).1 = Ok tt ->
     (run ws st).2 = fold_left (fun s w => (tick w s).2) ws st) /\
  (forall ws st e,
     (run ws st).1 = Raise e ->
     e = CancelledError \/ exists w, In w ws /\ close_fails w e) /\
  (forall w st cls msg st1,
     tick_body CHECK_INTERVAL NOTIFICATION_TIME cancelled others w (w_now w) st
     = (Raise (Exception cls msg), st1) ->
     w_db_close w = Returns tt ->
     since st (tick w st).2 =
     since st st1 ++
       [LogError ("Ошибка при проверке событий: " +:+ msg); DbClose;
        Sleep CHECK_INTERVAL] /\
     (tick w st).1 =
     (if cancelled (awaited st1) then Raise CancelledError else Ok tt)) /\
  (forall w st,
     calendar_unavailable cancelled w st ->
     exists pre,
       since st (tick w st).2 =
       pre ++ [unavailable_entry w; Sleep CHECK_INTERVAL; DbClose]) /\
  ((forall k, cancelled k = false) ->
   forall ws st,
     Forall (fun w => w_db_close w = Returns tt) ws ->
     (run ws st).1 = Ok tt /\
     (run ws st).2 = fold_left (fun s w => (tick w s).2) ws st /\
     forall w s, In w ws ->
       (tick w s).1 = Ok tt /\
       In (Sleep CHECK_INTERVAL) (since s (tick w s).2) /\
       failures_followed (since s (tick w s).2)).
Proof.
  intros run tick_now.
  split; [|split; [|split; [|split]]].
  - induction ws as [|w ws IH]; intros st; [intros _; reflexivity|].
    unfold run. simpl. rewrite bind_unfold.
    destruct (tick _ _ _ _ w st) as [[[]|e] st1] eqn:Ht; [|discriminate].
    intros H. unfold tick_now. rewrite Ht. now apply IH.
  - apply run_raises.
  - apply tick_logs_exception.
  - apply tick_unavailable_journal.
  - intros Hnc ws st Hall.
    destruct (run_all_turns CHECK_INTERVAL NOTIFICATION_TIME cancelled others
                Hnc ws st Hall) as [Hok Hfold].
    split; [exact Hok|]. split; [exact Hfold|].
    intros w s Hw.
    assert (w_db_close w = Returns tt) as Hc
      by exact (proj1 (List.Forall_forall _ _) Hall w Hw).
    split; [now apply tick_returns|]. split; [now apply tick_sleeps|].
    apply (orderly_since _ s
             (orderly_tick CHECK_INTERVAL NOTIFICATION_TIME cancelled others w)).
Qed.

Lemma loop_survives_errors_witness :
  (forall k, never_cancelled k = false) /\
  Forall (fun w => w_db_close w = Returns tt)
    [world_broken noon; world_down noon; world_of noon noon_events] /\
  let run := check_upcoming_events 300 15 never_cancelled nobody in
  let ws := [world_broken noon; world_down noon; world_of noon noon_events] in
  (run ws st_empty).1 = Ok tt /\
  (run ws st_empty).2 =
  fold_left (fun s w => (tick 300 15 never_cancelled nobody w s).2) ws st_empty.
Proof.
  assert (forall k, never_cancelled k = false) as H by reflexivity.
  assert (Forall (fun w => w_db_close w = Returns tt)
            [world_broken noon; world_down noon; world_of noon noon_events])
    as Hall by (repeat constructor).
  split; [exact H|]. split; [exact Hall|].
  destruct (loop_survives_errors 300 15 never_cancelled nobody)
    as (_ & _ & _ & _ & Hrun).
  destruct (Hrun H [world_broken noon; world_down noon;
                    world_of noon noon_events] st_empty Hall)
    as (Hok & Hfold & _).
  split; [exact Hok|exact Hfold].
Defined.

Example three_turns_journal :
  journal (check_upcoming_events 300 15 never_cancelled nobody
             [world_broken noon; world_down noon; world_of noon noon_events]
             st_empty).2
  = [LogError "Ошибка при проверке событий: invalid recurrence rule";
     DbClose; Sleep 300;
     LogError "Ошибка при загрузке календаря: 503";
     LogError "Не удалось загрузить календарь по URL: https://example.org/team.ics";
     Sleep 300; DbClose;
     Delivery 1 soon
       (Raise (Exception "TelegramForbiddenError" "bot was blocked by the user"));
     LogError "Ошибка при отправке уведомления пользователю 1: bot was blocked by the user";
     Sleep 1;
     Delivery 2 soon (Ok tt);
     DbClose; Sleep 300].
Proof. vm_compute. reflexivity. Qed.

(** C7, as the claim has it: it fails in a run that nobody cancels, when
    closing the session of the first turn raises.  The exception leaves
    the loop, and the turn of the second world never begins. *)
Lemma loop_survives_errors_counterexample :
  ~ (forall CHECK_INTERVAL NOTIFICATION_TIME cancelled others ws st e,
       (check_upcoming_events CHECK_INTERVAL NOTIFICATION_TIME cancelled others
          ws st).1 = Raise e ->
       e = CancelledError) /\
  (let r := check_upcoming_events 300 15 never_cancelled nobody
              [world_unclosed noon noon_events; world_of noon noon_events]
              st_empty in
   r.1 = Raise (Exception "OperationalError"
                  "server closed the connection unexpectedly") /\
   journal r.2 = [Delivery 1 soon (Ok tt); Delivery 2 soon (Ok tt); DbClose]).
Proof.
  assert ((check_upcoming_events 300 15 never_cancelled nobody
             [world_unclosed noon noon_events; world_of noon noon_events]
             st_empty).1
          = Raise (Exception "OperationalError"
                     "server closed the connection unexpectedly")) as Hr
    by (vm_compute; reflexivity).
  split.
  - intros H. apply H in Hr. discriminate Hr.
  - split; [exact Hr|]. vm_compute. reflexivity.
Qed.

(** ** The occurrences of a window *)

(** C8, as the code has it.  The occurrences that [get_events] returns
    are those of the components that the expansion yields, one for one,
    each with the summary, description and location of its component; a
    property that the component does not have is replaced by its fixed
    text, "Без названия", "Без описания" or "Без места", and a property
    that it has is carried over as it is, also when it is empty. *)
Theorem placeholders_for_missing_fields (w : world) (cal : icalendar)
    (start_date end_date : DT.datetime) (raw : list vevent) (evs : list event) :
  w_between w cal start_date end_date = Returns raw ->
  get_events w (Some cal) start_date end_date = Ok evs ->
  (forall r, In r raw -> exists ev, In ev evs /\ carries r ev) /\
  (forall ev, In ev evs -> exists r, In r raw /\ carries r ev).
Proof.
  unfold get_events. intros ->. simpl.
  destruct (map_result (format_event w) raw) as [l|] eqn:Hl; [|discriminate].
  simpl. intros [= <-].
  destruct (map_result_spec _ _ _ Hl) as [H1 H2]. split.
  - intros r Hr. destruct (H2 r Hr) as (ev & Hev & Hf).
    exists ev. split; [now apply in_sorted_by_start|].
    now apply (format_event_carries w).
  - intros ev Hev. apply (proj1 (in_sorted_by_start _ _)) in Hev.
    destruct (H1 ev Hev) as (r & Hr & Hf).
    exists r. split; [exact Hr|]. now apply (format_event_carries w).
Qed.

Lemma placeholders_for_missing_fields_witness :
  w_between (world_raw [bare; blank]) (Calendar [bare; blank]) noon one_o_clock
  = Returns [bare; blank] /\
  get_events (world_raw [bare; blank]) (Some (Calendar [bare; blank])) noon
    one_o_clock
  = Ok [ {| start := start soon; summary := "Без названия";
            description := "Без описания"; location := "Без места" |};
         {| start := start soon; summary := "";
            description := ""; location := "" |} ] /\
  (forall r, In r [bare; blank] ->
     exists ev,
       In ev [ {| start := start soon; summary := "Без названия";
                  description := "Без описания"; location := "Без места" |};
               {| start := start soon; summary := "";
                  description := ""; location := "" |} ] /\
       carries r ev).
Proof.
  split; [reflexivity|]. split; [reflexivity|].
  exact (proj1 (placeholders_for_missing_fields (world_raw [bare; blank])
                  (Calendar [bare; blank]) noon one_o_clock [bare; blank] _
                  eq_refl eq_refl)).
Defined.

(** C8, as the claim has it: it fails on [bare], where the fixed texts are
    not "Untitled", "No description" and "No location", and on [blank],
    whose occurrence has an empty summary, description and location. *)
Lemma placeholders_counterexample :
  ~ (forall w cal start_date end_date r evs,
       w_between w cal start_date end_date = Returns [r] ->
       get_events w (Some cal) start_date end_date = Ok evs ->
       forall ev, In ev evs ->
         (SUMMARY r = None -> summary ev = "Untitled") /\
         (DESCRIPTION r = None -> description ev = "No description") /\
         (LOCATION r = None -> location ev = "No location")) /\
  ~ (forall w cal start_date end_date evs,
       get_events w (Some cal) start_date end_date = Ok evs ->
       forall ev, In ev evs ->
         summary ev <> "" /\ description ev <> "" /\ location ev <> "").
Proof.
  split.
  - intros H.
    destruct (H (world_raw [bare]) (Calendar [bare]) noon one_o_clock bare
                _ eq_refl eq_refl _ (or_introl eq_refl)) as [Hs _].
    specialize (Hs eq_refl). discriminate Hs.
  - intros H.
    destruct (H (world_raw [blank]) (Calendar [blank]) noon one_o_clock _
                eq_refl _ (or_introl eq_refl)) as [Hs _].
    now apply Hs.
Qed.

(** ** The recipients of the dict *)

(** C9.  The pruning of a tick removes no recipient from the dict: the
    recipients that have a set before it are those that have one after
    it.  It only takes identities out of the sets, and an identity that
    [stale] does not find stale (in particular one whose second field
    between underscores does not start with the date of the day before
    [now]) is recorded after the pruning exactly when it was before. *)
Theorem prune_keeps_recipients (now : DT.datetime) (st : state) :
  let st' := (prune now st).2 in
  dom (notified_events st') = dom (notified_events st) /\
  (forall u, is_Some (notified_events st !! u) ->
             is_Some (notified_events st' !! u)) /\
  (forall u id, has (notified_events st') u id -> has (notified_events st) u id) /\
  (forall u id, stale now id <> Ok true ->
     (has (notified_events st') u id <-> has (notified_events st) u id)) /\
  (forall u id field c,
     PyStr.split "_" id !! 1%nat = Some field -> cutoff now = Ok c ->
     PyStr.startswith field c = false ->
     (has (notified_events st') u id <-> has (notified_events st) u id)).
Proof.
  intros st'.
  destruct (prune_thins now st) as (Hth & _ & _). fold st' in Hth.
  destruct (thinned_has _ _ _ Hth) as (Hdom & Hsub & Hkeep).
  assert (forall u id, stale now id <> Ok true ->
            (has (notified_events st') u id <-> has (notified_events st) u id))
    as Hframe.
  { intros u id Hns. split; [apply Hsub|now apply Hkeep]. }
  split; [exact Hdom|]. split; [|split; [exact Hsub|split; [exact Hframe|]]].
  - intros u Hu. apply elem_of_dom. rewrite Hdom. now apply elem_of_dom.
  - intros u id field c Hf Hc Hs. apply Hframe.
    unfold stale. rewrite Hf, Hc. simpl. rewrite Hs. discriminate.
Qed.

(** ** No calendar *)

(** C10.  Asked for the occurrences of a calendar that is absent,
    [get_events] returns the empty list, whatever the window. *)
Theorem get_events_without_calendar (w : world) (start_date end_date : DT.datetime) :
  get_events w None start_date end_date = Ok [].
Proof. reflexivity. Qed.
